(** * Reconciliation of CrowdSec decisions into a Cloudflare IP list

    A shallow embedding of the two [main] programs of the bouncer:

    - the stream-driven program (the file whose [main] starts by reading
      ["./conf.yaml"]), which folds every stream batch into two fresh
      request maps and calls Cloudflare at the end of the same iteration;
    - the ticker-driven program ([main.go]), whose [select] loop collects
      batches into long-lived request maps and calls Cloudflare on every
      tick of [cloudflareTicker].

    Go maps are [gmap]s; [m[k]] on a missing key is the zero value.  The
    Cloudflare client is an external collaborator: every reply it gives is
    an input of the model, and every call the program makes is appended to
    a log. *)

From stdpp Require Import gmap strings list fin_maps.

Open Scope string_scope.
Open Scope list_scope.

(** ** Data *)

(** [cloudflare.IPListItemCreateRequest]: the key type of [addIPMap]. *)
Record IPListItemCreateRequest := mkCreateRequest {
  IP : string;
  Comment : string
}.

(** [cloudflare.IPListItemDeleteItemRequest]: the key type of [deleteIPMap]. *)
Record IPListItemDeleteItemRequest := mkDeleteItemRequest {
  ID : string
}.

(** [cloudflare.IPListItem], restricted to the two fields the programs read
    ([ipItem.IP] and [ipItem.ID]). *)
Record IPListItem := mkIPListItem {
  ItemIP : string;
  ItemID : string
}.

(** [models.Decision]: the loops get a [*Decision] whose [Value] is a
    [*string], and evaluate [*decision.Value] without a nil test; [None]
    stands for a nil pointer on that path. *)
Record Decision := mkDecision {
  Value : option string
}.

(** [models.DecisionsStreamResponse]. *)
Record DecisionsStreamResponse := mkStream {
  Deleted : list Decision;
  New : list Decision
}.

#[global] Instance IPListItemCreateRequest_eq_dec : EqDecision IPListItemCreateRequest.
Proof. solve_decision. Defined.

#[global] Instance IPListItemDeleteItemRequest_eq_dec : EqDecision IPListItemDeleteItemRequest.
Proof. solve_decision. Defined.

#[global] Instance IPListItem_eq_dec : EqDecision IPListItem.
Proof. solve_decision. Defined.

#[global] Instance Decision_eq_dec : EqDecision Decision.
Proof. solve_decision. Defined.

#[global] Instance IPListItemCreateRequest_countable : Countable IPListItemCreateRequest.
Proof.
  refine (inj_countable' (λ r, (IP r, Comment r))
                         (λ p, mkCreateRequest p.1 p.2) _).
  by intros [].
Defined.

#[global] Instance IPListItemDeleteItemRequest_countable : Countable IPListItemDeleteItemRequest.
Proof.
  refine (inj_countable' ID mkDeleteItemRequest _).
  by intros [].
Defined.

(** A call made on the Cloudflare client, with the item list it carries. *)
Inductive APICall :=
  | CreateIPListItems (items : list IPListItemCreateRequest)
  | DeleteIPListItems (items : list IPListItemDeleteItemRequest).

(** What a client call returns: its value, or a non-nil [error]. *)
Inductive Reply (A : Type) :=
  | Success (a : A)
  | Failure (err : string).
Arguments Success {A} a.
Arguments Failure {A} err.

(** The variables of [main] that the loop works on, and the log of the
    client calls made so far.  The stream-driven program spells the three
    maps [cloudflareIdByIp], [deleteIpsMap] and [addIpsMap]. *)
Record State := mkState {
  cloudflareIDByIP : gmap string string;
  deleteIPMap : gmap IPListItemDeleteItemRequest bool;
  addIPMap : gmap IPListItemCreateRequest bool;
  calls : list APICall
}.

(** How a process stops. *)
Inductive ExitCause :=
  | LogFatal (err : string)   (* log.Fatal(err): os.Exit(1) *)
  | NilDereference            (* runtime panic on [*decision.Value] *)
  | TombDying.                (* the loop returned errors.New("tomb dying") *)

(** The result of running a piece of the loop: the loop goes on with a
    state, or the process is gone, leaving the calls it had made. *)
Inductive Outcome :=
  | Running (s : State)
  | Exited (c : ExitCause) (log : list APICall).

(** ** Go map primitives *)

(** [m[k]] for a [map[string]string]: the zero value when [k] is missing. *)
Definition index (m : gmap string string) (k : string) : string :=
  default "" (m !! k).

(** The keys of a map, in the order of [map_to_list]. *)
Definition keys `{Countable K} {V} (m : gmap K V) : list K :=
  (map_to_list m).*1.

(** [for k := range m { l = append(l, k) }]: Go leaves the iteration order
    unspecified, so [l] is any arrangement of the keys. *)
Definition ranges `{Countable K} {V} (m : gmap K V) (l : list K) : Prop :=
  l ≡ₚ keys m.

(** [initial] is the state when the loop is entered: three [make(map...)],
    no call made yet. *)
Definition initial : State := mkState ∅ ∅ ∅ [].

(** ** The batch collector (stream-driven program, lines 83-95) *)

(** The fixed annotation of every create request. *)
Definition annotation : string := "Added by crowdsec bouncer".

(** Body of [for _, decision := range streamDecision.Deleted]. *)
Definition deletedBody (decision : Decision) (s : State) : option State :=
  v ← Value decision;
  if decide (index (cloudflareIDByIP s) v ≠ "") then
    Some (mkState
            (delete v (cloudflareIDByIP s))
            (<[mkDeleteItemRequest (index (cloudflareIDByIP s) v) := true]> (deleteIPMap s))
            (addIPMap s)
            (calls s))
  else Some s.

(** Body of [for _, decision := range streamDecision.New]. *)
Definition newBody (decision : Decision) (s : State) : option State :=
  v ← Value decision;
  Some (mkState
          (cloudflareIDByIP s)
          (deleteIPMap s)
          (<[mkCreateRequest v annotation := true]> (addIPMap s))
          (calls s)).

(** A [for ... range] over a slice whose body may panic. *)
Fixpoint rangeLoop {A} (body : A → State → option State)
    (l : list A) (s : State) : option State :=
  match l with
  | [] => Some s
  | x :: l' => s' ← body x s; rangeLoop body l' s'
  end.

(** Lines 83-95: the deleted decisions first, then the new ones. *)
Definition collect (streamDecision : DecisionsStreamResponse) (s : State) : option State :=
  s' ← rangeLoop deletedBody (Deleted streamDecision) s;
  rangeLoop newBody (New streamDecision) s'.

(** Several batches in a row with no flush in between: one window. *)
Definition collectAll (batches : list DecisionsStreamResponse) (s : State) : option State :=
  rangeLoop collect batches s.

(** ** The flush (ticker-driven program, lines 104-136) *)

(** The loop at lines 117-119: [cloudflareIDByIP[ipItem.IP] = ipItem.ID]
    for every returned item, in slice order. *)
Definition recordItems (ipItems : list IPListItem)
    (m : gmap string string) : gmap string string :=
  foldl (λ m ipItem, <[ItemIP ipItem := ItemID ipItem]> m) m ipItems.

(** Lines 109-120.  [addIPs] is the slice built by ranging over
    [addIPMap]; [createReply] is what [cfAPI.CreateIPListItems] returns if
    it is called. *)
Definition createPhase (addIPs : list IPListItemCreateRequest)
    (createReply : Reply (list IPListItem)) (s : State) : Outcome :=
  if decide (0 < length addIPs) then
    match createReply with
    | Failure err => Exited (LogFatal err) (calls s ++ [CreateIPListItems addIPs])
    | Success ipItems =>
        Running (mkState (recordItems ipItems (cloudflareIDByIP s))
                         (deleteIPMap s) (addIPMap s)
                         (calls s ++ [CreateIPListItems addIPs]))
    end
  else Running s.

(** Lines 126-132.  The returned items are discarded ([_, err := ...]). *)
Definition deletePhase (deleteIPs : list IPListItemDeleteItemRequest)
    (deleteReply : Reply (list IPListItem)) (s : State) : Outcome :=
  if decide (0 < length deleteIPs) then
    match deleteReply with
    | Failure err => Exited (LogFatal err) (calls s ++ [DeleteIPListItems deleteIPs])
    | Success _ =>
        Running (mkState (cloudflareIDByIP s) (deleteIPMap s) (addIPMap s)
                         (calls s ++ [DeleteIPListItems deleteIPs]))
    end
  else Running s.

(** Lines 134-136: both request maps are replaced by fresh ones. *)
Definition resetPending (s : State) : State :=
  mkState (cloudflareIDByIP s) ∅ ∅ (calls s).

(** Sequencing of two pieces of the loop. *)
Definition andThen (o : Outcome) (k : State → Outcome) : Outcome :=
  match o with
  | Running s => k s
  | Exited c log => Exited c log
  end.

(** The [case <-cloudflareTicker.C] branch, for given iteration orders of
    the two [range] loops. *)
Definition flushWith (addIPs : list IPListItemCreateRequest)
    (deleteIPs : list IPListItemDeleteItemRequest)
    (createReply deleteReply : Reply (list IPListItem)) (s : State) : Outcome :=
  andThen (createPhase addIPs createReply s) (λ s1,
  andThen (deletePhase deleteIPs deleteReply s1) (λ s2,
  Running (resetPending s2))).

(** The same branch with the orders of [keys]. *)
Definition flush (createReply deleteReply : Reply (list IPListItem))
    (s : State) : Outcome :=
  flushWith (keys (addIPMap s)) (keys (deleteIPMap s)) createReply deleteReply s.

(** The calls made when an outcome is reached. *)
Definition logOf (o : Outcome) : list APICall :=
  match o with
  | Running s => calls s
  | Exited _ log => log
  end.

(** ** The [select] loop of the ticker-driven program (lines 97-143) *)

(** What the [select] can receive, with the replies Cloudflare gives to the
    calls of that iteration. *)
Inductive Event :=
  | Dying
  | Tick (createReply deleteReply : Reply (list IPListItem))
  | Stream (streamDecision : DecisionsStreamResponse).

(** Where the goroutine of the loop is when it waits: at the [select]
    (line 99), inside [cfAPI.CreateIPListItems] (line 110) or inside
    [cfAPI.DeleteIPListItems] (line 127); or the process has stopped. *)
Inductive Control :=
  | AtSelect (s : State)
  | InCreate (addIPs : list IPListItemCreateRequest) (s : State)
  | InDelete (deleteIPs : list IPListItemDeleteItemRequest) (s : State)
  | Stopped (c : ExitCause) (log : list APICall).

(** What the goroutine can be handed at such a point: a case of the
    [select], or the return of the call it is in. *)
Inductive Input :=
  | TombDies
  | TickerFires
  | StreamDelivers (streamDecision : DecisionsStreamResponse)
  | CreateReturns (createReply : Reply (list IPListItem))
  | DeleteReturns (deleteReply : Reply (list IPListItem)).

Section SelectLoop.

(** [CollectLAPIStream] is called at line 140 and defined in a file that
    is not part of the sources.  It gets the batch and the three maps;
    here it is any function of the state, [None] being a panic.  The runs
    on concrete events below put [collect], the collecting loops of the
    stream-driven program, in its place. *)
Variable CollectLAPIStream : DecisionsStreamResponse → State → option State.

Definition streamCase (streamDecision : DecisionsStreamResponse)
    (s : State) : Outcome :=
  match CollectLAPIStream streamDecision s with
  | Some s' => Running s'
  | None => Exited NilDereference (calls s)
  end.

(** One iteration of [for { select { ... } }]. *)
Inductive selects (s : State) : Event → Outcome → Prop :=
  | selects_dying :
      selects s Dying (Exited TombDying (calls s))
  | selects_tick createReply deleteReply addIPs deleteIPs :
      ranges (addIPMap s) addIPs →
      ranges (deleteIPMap s) deleteIPs →
      selects s (Tick createReply deleteReply)
              (flushWith addIPs deleteIPs createReply deleteReply s)
  | selects_stream streamDecision :
      selects s (Stream streamDecision) (streamCase streamDecision s).

(** The iteration with the [range] orders of [keys]. *)
Definition selectCase (e : Event) (s : State) : Outcome :=
  match e with
  | Dying => Exited TombDying (calls s)
  | Tick createReply deleteReply => flush createReply deleteReply s
  | Stream streamDecision => streamCase streamDecision s
  end.

(** The loop over a sequence of events. *)
Fixpoint run (events : list Event) (s : State) : Outcome :=
  match events with
  | [] => Running s
  | e :: events' => andThen (selectCase e s) (run events')
  end.

(** After the create call: lines 122-132, up to the next blocking point. *)
Definition toDelete (deleteIPs : list IPListItemDeleteItemRequest)
    (s : State) : Control :=
  if decide (0 < length deleteIPs) then InDelete deleteIPs s
  else AtSelect (resetPending s).

(** The goroutine seen between its blocking points: at the [select], or
    inside one of the two client calls. *)
Inductive step : Control → Input → Control → Prop :=
  | step_dying s :
      step (AtSelect s) TombDies (Stopped TombDying (calls s))
  | step_stream s streamDecision s' :
      CollectLAPIStream streamDecision s = Some s' →
      step (AtSelect s) (StreamDelivers streamDecision) (AtSelect s')
  | step_stream_panic s streamDecision :
      CollectLAPIStream streamDecision s = None →
      step (AtSelect s) (StreamDelivers streamDecision)
           (Stopped NilDereference (calls s))
  | step_tick_create s addIPs :
      ranges (addIPMap s) addIPs →
      0 < length addIPs →
      step (AtSelect s) TickerFires (InCreate addIPs s)
  | step_tick_skip s deleteIPs :
      addIPMap s = ∅ →
      ranges (deleteIPMap s) deleteIPs →
      step (AtSelect s) TickerFires (toDelete deleteIPs s)
  | step_create_failed s addIPs err :
      step (InCreate addIPs s) (CreateReturns (Failure err))
           (Stopped (LogFatal err) (calls s ++ [CreateIPListItems addIPs]))
  | step_create_done s addIPs ipItems deleteIPs :
      ranges (deleteIPMap s) deleteIPs →
      step (InCreate addIPs s) (CreateReturns (Success ipItems))
           (toDelete deleteIPs
              (mkState (recordItems ipItems (cloudflareIDByIP s))
                       (deleteIPMap s) (addIPMap s)
                       (calls s ++ [CreateIPListItems addIPs])))
  | step_delete_failed s deleteIPs err :
      step (InDelete deleteIPs s) (DeleteReturns (Failure err))
           (Stopped (LogFatal err) (calls s ++ [DeleteIPListItems deleteIPs]))
  | step_delete_done s deleteIPs ipItems :
      step (InDelete deleteIPs s) (DeleteReturns (Success ipItems))
           (AtSelect (resetPending
              (mkState (cloudflareIDByIP s) (deleteIPMap s) (addIPMap s)
                       (calls s ++ [DeleteIPListItems deleteIPs])))).

(** Several steps in a row, with the inputs taken. *)
Inductive steps : Control → list Input → Control → Prop :=
  | steps_nil c : steps c [] c
  | steps_cons c i c1 inputs c2 :
      step c i c1 → steps c1 inputs c2 → steps c (i :: inputs) c2.

End SelectLoop.

(** Where the goroutine is after a piece of the loop. *)
Definition controlOf (o : Outcome) : Control :=
  match o with
  | Running s => AtSelect s
  | Exited c log => Stopped c log
  end.

(** The replies a flush waits for, in order: the reply of the create call
    when the add slice is not empty, then the reply of the delete call when
    the process is still there and the delete slice is not empty. *)
Definition repliesAwaited (addIPs : list IPListItemCreateRequest)
    (deleteIPs : list IPListItemDeleteItemRequest)
    (createReply deleteReply : Reply (list IPListItem)) : list Input :=
  match addIPs, createReply with
  | _ :: _, Failure _ => [CreateReturns createReply]
  | _ :: _, Success _ =>
      CreateReturns createReply ::
      (if decide (0 < length deleteIPs) then [DeleteReturns deleteReply] else [])
  | [], _ => if decide (0 < length deleteIPs) then [DeleteReturns deleteReply] else []
  end.

(** ** One iteration of the stream-driven program (lines 79-122) *)

(** Lines 118-120: the result of [cfApi.DeleteIPListItems] is dropped, the
    error with it. *)
Definition deleteUnchecked (deleteIps : list IPListItemDeleteItemRequest)
    (deleteReply : Reply (list IPListItem)) (s : State) : Outcome :=
  if decide (0 < length deleteIps) then
    Running (mkState (cloudflareIDByIP s) (deleteIPMap s) (addIPMap s)
                     (calls s ++ [DeleteIPListItems deleteIps]))
  else Running s.

(** The body of [for streamDecision := range csLapi.Stream], with the
    [range] orders of [keys]: fresh request maps, the two collecting loops,
    the create call (lines 102-111 are lines 109-120 of the ticker-driven
    program), the delete call. *)
Definition iteration (streamDecision : DecisionsStreamResponse)
    (createReply deleteReply : Reply (list IPListItem)) (s : State) : Outcome :=
  match collect streamDecision (resetPending s) with
  | None => Exited NilDereference (calls s)
  | Some s1 =>
      andThen (createPhase (keys (addIPMap s1)) createReply s1)
              (deleteUnchecked (keys (deleteIPMap s1)) deleteReply)
  end.

(** ** Vocabulary of the statements *)

(** A decision whose [Value] pointer is set. *)
Definition valued (decision : Decision) : Prop := is_Some (Value decision).

(** A batch all of whose decisions carry a value. *)
Definition wellFormed (streamDecision : DecisionsStreamResponse) : Prop :=
  Forall valued (Deleted streamDecision) ∧ Forall valued (New streamDecision).

(** The batch [{new: [{value: v}]}] and the batch [{deleted: [{value: v}]}]. *)
Definition newOf (v : string) : DecisionsStreamResponse :=
  mkStream [] [mkDecision (Some v)].
Definition deletedOf (v : string) : DecisionsStreamResponse :=
  mkStream [mkDecision (Some v)] [].

(** The values deleted, and the values added, by the batches of a window. *)
Definition deletedValues (batches : list DecisionsStreamResponse) : list string :=
  omap Value (batches ≫= Deleted).
Definition newValues (batches : list DecisionsStreamResponse) : list string :=
  omap Value (batches ≫= New).

(** The test of line 84 of the stream-driven program on a value:
    [cloudflareIdByIp[v] != ""]. *)
Definition resolvable (m : gmap string string) (v : string) : Prop :=
  index m v ≠ "".

(** The contract of the collector over a window, as a relation between
    the state before and the state after: for deleted values [dv] and new
    values [nv], no call is made, the address index loses the deleted
    values that pass the test, the delete map gains their identifiers, and
    the add map gains one annotated request per new value. *)
Definition collected (dv nv : list string) (s s' : State) : Prop :=
  calls s' = calls s ∧
  (∀ k, cloudflareIDByIP s' !! k =
        if decide (k ∈ dv ∧ resolvable (cloudflareIDByIP s) k)
        then None else cloudflareIDByIP s !! k) ∧
  (∀ q, is_Some (deleteIPMap s' !! q) ↔
        is_Some (deleteIPMap s !! q) ∨
        ∃ v, v ∈ dv ∧ resolvable (cloudflareIDByIP s) v ∧
             index (cloudflareIDByIP s) v = ID q) ∧
  (∀ q, is_Some (addIPMap s' !! q) ↔
        is_Some (addIPMap s !! q) ∨
        (IP q ∈ nv ∧ Comment q = annotation)).

(** The create requests of a slice that concern one address. *)
Definition requestsFor (ip : string)
    (addIPs : list IPListItemCreateRequest) : list IPListItemCreateRequest :=
  filter (λ r, IP r = ip) addIPs.

(** The delete requests of a slice that carry one remote identifier. *)
Definition requestsOf (id : string)
    (deleteIPs : list IPListItemDeleteItemRequest) : list IPListItemDeleteItemRequest :=
  filter (λ r, ID r = id) deleteIPs.

(** The last item of a create reply that concerns one address: the loop
    at lines 117-119 lets a later item overwrite an earlier one. *)
Definition lastItemFor (ip : string) (ipItems : list IPListItem) : option IPListItem :=
  last (filter (λ ipItem, ItemIP ipItem = ip) ipItems).

(** Events that leave the entry of an address in the index as it is, when
    it holds the identifier [remoteID]: a batch that has no deleted
    decision for the address, a tick whose create reply has no item for the
    address or has [remoteID] in its last item for it. *)
Definition keepsEntry (ip remoteID : string) (events : list Event) : Prop :=
  Forall (λ e, match e with
               | Stream streamDecision =>
                   ip ∉ omap Value (Deleted streamDecision)
               | Tick (Success ipItems) _ =>
                   ∀ ipItem, lastItemFor ip ipItems = Some ipItem →
                             ItemID ipItem = remoteID
               | _ => True
               end) events.

(** The goroutine is inside a client call. *)
Definition inFlight (c : Control) : Prop :=
  match c with
  | InCreate _ _ | InDelete _ _ => True
  | AtSelect _ | Stopped _ _ => False
  end.

(** ** The stream-driven loop over several deliveries *)

(** One delivery of the stream, with the replies Cloudflare gives to the
    calls of the iteration it starts. *)
Record Delivery := mkDelivery {
  batch : DecisionsStreamResponse;
  createReplyOf : Reply (list IPListItem);
  deleteReplyOf : Reply (list IPListItem)
}.

(** [for streamDecision := range csLapi.Stream { ... }] (lines 79-122). *)
Fixpoint runStream (deliveries : list Delivery) (s : State) : Outcome :=
  match deliveries with
  | [] => Running s
  | d :: rest =>
      andThen (iteration (batch d) (createReplyOf d) (deleteReplyOf d) s)
              (runStream rest)
  end.

(** ** The ticker-driven loop, for every order of the [range] loops *)

Section Loops.

Variable CollectLAPIStream : DecisionsStreamResponse → State → option State.

(** The loop over a sequence of events, each iteration being any of the
    iterations [selects] allows. *)
Inductive loops : State → list Event → Outcome → Prop :=
  | loops_nil s :
      loops s [] (Running s)
  | loops_exit s e events c log :
      selects CollectLAPIStream s e (Exited c log) →
      loops s (e :: events) (Exited c log)
  | loops_next s e events s1 o :
      selects CollectLAPIStream s e (Running s1) →
      loops s1 events o →
      loops s (e :: events) o.

End Loops.

(** ** Set-up of the stream-driven program (lines 12-63) *)

Module cloudflare.

(** [cloudflare.IPList], restricted to the fields the set-up reads. *)
Record IPList := mkIPList {
  ID : string;
  Name : string
}.

(** [cloudflare.Filter] and [cloudflare.FirewallRule], restricted to the
    fields the set-up writes. *)
Record Filter := mkFilter {
  Expression : string
}.

Record FirewallRule := mkFirewallRule {
  RuleFilter : Filter;
  Action : string
}.

End cloudflare.

(** Lines 30-37: the identifier of the first list named "crowdsec". *)
Fixpoint getCrowdSecIPListId (ipLists : list cloudflare.IPList) : Reply string :=
  match ipLists with
  | [] => Failure "crowdsec ip list not found"
  | ipList :: rest =>
      if decide (cloudflare.Name ipList = "crowdsec")
      then Success (cloudflare.ID ipList)
      else getCrowdSecIPListId rest
  end.

(** A call made on the Cloudflare client while setting up. *)
Inductive SetupCall :=
  | ListIPLists
  | DeleteIPList (id : string)
  | CreateIPList (name desc typ : string)
  | CreateFirewallRules (zone : string) (rules : list cloudflare.FirewallRule).

(** The set-up went through with a value, or [log.Fatal] ended the
    process; either way with the calls made. *)
Inductive SetupOutcome (A : Type) :=
  | Done (a : A) (log : list SetupCall)
  | Aborted (err : string) (log : list SetupCall).
Arguments Done {A} a log.
Arguments Aborted {A} err log.

Definition setupLog {A} (o : SetupOutcome A) : list SetupCall :=
  match o with
  | Done _ log => log
  | Aborted _ log => log
  end.

(** Lines 12-28.  [listReply] is what [api.ListIPLists] returns, and
    [deleteReply] what [api.DeleteIPList] returns if it is called; the
    error of [getCrowdSecIPListId] is a plain [return]. *)
Definition clearExistingCrowdSecIpList
    (listReply : Reply (list cloudflare.IPList)) (deleteReply : Reply unit)
    : SetupOutcome unit :=
  match listReply with
  | Failure err => Aborted err [ListIPLists]
  | Success ipLists =>
      match getCrowdSecIPListId ipLists with
      | Failure _ => Done () [ListIPLists]
      | Success id =>
          match deleteReply with
          | Failure err => Aborted err [ListIPLists; DeleteIPList id]
          | Success _ => Done () [ListIPLists; DeleteIPList id]
          end
      end
  end.

(** The one firewall rule of lines 54-58. *)
Definition crowdsecRule : cloudflare.FirewallRule :=
  cloudflare.mkFirewallRule (cloudflare.mkFilter "ip.src in $crowdsec") "challenge".

(** Lines 48-63 of [main]: clear, create the list, create the rule.
    [zone] is [conf.CloudflareZoneID]; the result is the created list. *)
Definition setUp (zone : string)
    (listReply : Reply (list cloudflare.IPList)) (deleteReply : Reply unit)
    (createListReply : Reply cloudflare.IPList)
    (rulesReply : Reply (list cloudflare.FirewallRule))
    : SetupOutcome cloudflare.IPList :=
  match clearExistingCrowdSecIpList listReply deleteReply with
  | Aborted err log => Aborted err log
  | Done _ log =>
      let log1 :=
        log ++ [CreateIPList "crowdsec" "IP list managed by crowdsec bouncer" "ip"] in
      match createListReply with
      | Failure err => Aborted err log1
      | Success ipList =>
          let log2 := log1 ++ [CreateFirewallRules zone [crowdsecRule]] in
          match rulesReply with
          | Failure err => Aborted err log2
          | Success _ => Done ipList log2
          end
      end
  end.

(** ** Vocabulary of the further statements *)

(** A call as the loops mean to make it: a create call carries a
    non-empty slice of distinct annotated requests, a delete call a
    non-empty slice of distinct requests with non-empty identifiers. *)
Definition wellFormedCall (c : APICall) : Prop :=
  match c with
  | CreateIPListItems items =>
      items ≠ [] ∧ NoDup items ∧ Forall (λ r, Comment r = annotation) items
  | DeleteIPListItems items =>
      items ≠ [] ∧ NoDup items ∧ Forall (λ r, ID r ≠ "") items
  end.

(** The request maps hold only what the collecting loops put in them. *)
Definition pendingOK (s : State) : Prop :=
  (∀ q, is_Some (addIPMap s !! q) → Comment q = annotation) ∧
  (∀ q, is_Some (deleteIPMap s !! q) → ID q ≠ "").

(** An item that Cloudflare returned during a run of the ticker-driven
    loop over some events: it is in the successful reply of a tick that the
    loop reached with a non-empty add map, which is when the create call
    is made. *)
Definition returnedBy (events : list Event) (ipItem : IPListItem) : Prop :=
  ∃ pre ipItems deleteReply post s0,
    events = pre ++ Tick (Success ipItems) deleteReply :: post ∧
    loops collect initial pre (Running s0) ∧
    addIPMap s0 ≠ ∅ ∧
    ipItem ∈ ipItems.

(** The number of ticks among some events. *)
Definition isTick (e : Event) : bool :=
  match e with Tick _ _ => true | _ => false end.
Definition ticks (events : list Event) : nat :=
  length (filter (λ e, isTick e = true) events).

(** The create calls, and the delete calls, of a log. *)
Definition isCreate (c : APICall) : bool :=
  match c with CreateIPListItems _ => true | DeleteIPListItems _ => false end.
Definition createCalls (log : list APICall) : list APICall :=
  filter (λ c, isCreate c = true) log.
Definition deleteCalls (log : list APICall) : list APICall :=
  filter (λ c, isCreate c = false) log.

(** The call of the set-up whose reply is the error [err]. *)
Definition failedWith
    (listReply : Reply (list cloudflare.IPList)) (deleteReply : Reply unit)
    (createListReply : Reply cloudflare.IPList)
    (rulesReply : Reply (list cloudflare.FirewallRule))
    (err : string) (c : SetupCall) : Prop :=
  match c with
  | ListIPLists => listReply = Failure err
  | DeleteIPList _ => deleteReply = Failure err
  | CreateIPList _ _ _ => createListReply = Failure err
  | CreateFirewallRules _ _ => rulesReply = Failure err
  end.

(** The list deletions of a set-up log. *)
Definition isDeleteIPList (c : SetupCall) : bool :=
  match c with DeleteIPList _ => true | _ => false end.
Definition listDeletions (log : list SetupCall) : list SetupCall :=
  filter (λ c, isDeleteIPList c = true) log.

(** The one batch that holds all the decisions of a window, in order. *)
Definition mergeBatches (batches : list DecisionsStreamResponse) : DecisionsStreamResponse :=
  mkStream (batches ≫= Deleted) (batches ≫= New).

(** * Properties *)

(** ** Ranging over a Go map *)

Section Ranging.
Context `{Countable K} {V : Type}.
Implicit Types (m : gmap K V) (l : list K) (k : K).

Lemma ranges_keys m : ranges m (keys m).
Proof. by unfold ranges. Qed.

Lemma keys_NoDup m : NoDup (keys m).
Proof. apply NoDup_fst_map_to_list. Qed.

Lemma elem_of_keys m k : k ∈ keys m ↔ is_Some (m !! k).
Proof.
  unfold keys. rewrite list_elem_of_fmap. split.
  - intros [[k' v] [-> Hin]]. apply elem_of_map_to_list in Hin. by exists v.
  - intros [v Hv]. exists (k, v). split; [done|]. by apply elem_of_map_to_list.
Qed.

Lemma ranges_NoDup m l : ranges m l → NoDup l.
Proof. intros Hl. unfold ranges in Hl. rewrite Hl. apply keys_NoDup. Qed.

Lemma ranges_elem_of m l k : ranges m l → k ∈ l ↔ is_Some (m !! k).
Proof. intros Hl. unfold ranges in Hl. rewrite Hl. apply elem_of_keys. Qed.

Lemma ranges_length m l : ranges m l → length l = size m.
Proof.
  intros Hl. unfold ranges in Hl. rewrite Hl. unfold keys.
  by rewrite length_fmap, length_map_to_list.
Qed.

Lemma ranges_empty l : ranges (∅ : gmap K V) l → l = [].
Proof.
  intros Hl. apply ranges_length in Hl. rewrite map_size_empty in Hl.
  by destruct l.
Qed.

Lemma ranges_nil_empty m : ranges m [] → m = ∅.
Proof.
  intros Hl. apply ranges_length in Hl. simpl in Hl.
  symmetry in Hl. by apply map_size_empty_iff in Hl.
Qed.

Lemma ranges_singleton k (v : V) l : ranges ({[k := v]} : gmap K V) l → l = [k].
Proof.
  intros Hl. unfold ranges, keys in Hl.
  rewrite map_to_list_singleton in Hl. simpl in Hl.
  by apply Permutation_singleton_r in Hl.
Qed.

(** If one key of the map, and only that one, has property [P], the
    [range] loop meets exactly that key among those with [P]. *)
Lemma ranges_filter_unique (P : K → Prop) `{!∀ k, base.Decision (P k)} m l k :
  ranges m l → is_Some (m !! k) → P k →
  (∀ k', is_Some (m !! k') → P k' → k' = k) →
  filter P l = [k].
Proof.
  intros Hl Hk HP Huniq. pose proof (ranges_NoDup _ _ Hl) as Hnd.
  apply (ranges_elem_of _ _ k Hl) in Hk.
  assert (∀ k', k' ∈ l → P k' → k' = k) as Hu.
  { intros k' Hk'. apply Huniq. by apply (ranges_elem_of _ _ k' Hl). }
  clear Hl Huniq.
  induction Hnd as [|x l Hx Hnd IH]; [by apply elem_of_nil in Hk|].
  rewrite filter_cons. destruct (decide (P x)) as [HPx|HPx].
  - assert (x = k) as -> by (apply Hu; [left|done]).
    f_equal. destruct (filter P l) as [|y l'] eqn:Hf; [done|].
    assert (y ∈ filter P l) as Hy by (rewrite Hf; left).
    apply list_elem_of_filter in Hy as [HPy Hy].
    assert (y = k) as -> by (apply Hu; [by right|done]). done.
  - apply elem_of_cons in Hk as [->|Hk]; [done|].
    apply IH; [done|]. intros k' Hk'. apply Hu. by right.
Qed.

End Ranging.

(** ** Loops whose body may panic *)

Section RangeLoop.
Context {A : Type} (body : A → State → option State).

Lemma rangeLoop_app l1 l2 s :
  rangeLoop body (l1 ++ l2) s = s' ← rangeLoop body l1 s; rangeLoop body l2 s'.
Proof.
  revert s. induction l1 as [|x l1 IH]; intros s; simpl; [done|].
  destruct (body x s) as [s1|]; simpl; [apply IH|done].
Qed.

(** A relation that every run of the body respects is respected by the
    loop, when it is reflexive and transitive. *)
Lemma rangeLoop_rel (R : relation State) l s s' :
  (∀ t, R t t) → (∀ t1 t2 t3, R t1 t2 → R t2 t3 → R t1 t3) →
  (∀ x s1 s2, x ∈ l → body x s1 = Some s2 → R s1 s2) →
  rangeLoop body l s = Some s' → R s s'.
Proof.
  intros Hrefl Htrans.
  revert s. induction l as [|x l IH]; intros s Hbody Hrun; simpl in Hrun.
  - injection Hrun as ->. apply Hrefl.
  - destruct (body x s) as [s1|] eqn:Hx; simpl in Hrun; [|done].
    apply (Htrans _ s1).
    + apply (Hbody x); [left|done].
    + apply IH; [|done]. intros y t1 t2 Hy. apply Hbody. by right.
Qed.

(** The loop runs to its end when the body does not panic on any element. *)
Lemma rangeLoop_total l s :
  (∀ x t, x ∈ l → is_Some (body x t)) → is_Some (rangeLoop body l s).
Proof.
  revert s. induction l as [|x l IH]; intros s Hbody; simpl; [by eexists|].
  destruct (Hbody x s) as [s1 ->]; [left|]. simpl.
  apply IH. intros y t Hy. apply Hbody. by right.
Qed.

End RangeLoop.

(** ** The collector, decision by decision *)

Lemma deletedBody_valued decision s : valued decision → is_Some (deletedBody decision s).
Proof.
  intros [v Hv]. unfold deletedBody. rewrite Hv. simpl.
  case_decide; by eexists.
Qed.

Lemma newBody_valued decision s : valued decision → is_Some (newBody decision s).
Proof. intros [v Hv]. unfold newBody. rewrite Hv. simpl. by eexists. Qed.

Lemma collect_wellFormed streamDecision s :
  wellFormed streamDecision → is_Some (collect streamDecision s).
Proof.
  intros [Hd Hn]. unfold collect.
  destruct (rangeLoop_total deletedBody (Deleted streamDecision) s) as [s1 ->].
  { intros x t Hx. apply deletedBody_valued. by eapply Forall_forall in Hd. }
  simpl. apply rangeLoop_total.
  intros x t Hx. apply newBody_valued. by eapply Forall_forall in Hn.
Qed.

Lemma collectAll_wellFormed batches s :
  Forall wellFormed batches → is_Some (collectAll batches s).
Proof.
  intros Hb. apply rangeLoop_total. intros b t Hin.
  apply collect_wellFormed. by eapply Forall_forall in Hb.
Qed.

(** What one deleted decision with value [v] does, by the entry of [v]. *)
Lemma deletedBody_absent v s :
  cloudflareIDByIP s !! v = None → deletedBody (mkDecision (Some v)) s = Some s.
Proof.
  intros Hv. unfold deletedBody, index. simpl. rewrite Hv. simpl. done.
Qed.

Lemma deletedBody_empty_id v s :
  cloudflareIDByIP s !! v = Some "" → deletedBody (mkDecision (Some v)) s = Some s.
Proof.
  intros Hv. unfold deletedBody, index. simpl. rewrite Hv. simpl. done.
Qed.

Lemma deletedBody_resolved v r s :
  cloudflareIDByIP s !! v = Some r → r ≠ "" →
  deletedBody (mkDecision (Some v)) s =
    Some (mkState (delete v (cloudflareIDByIP s))
                  (<[mkDeleteItemRequest r := true]> (deleteIPMap s))
                  (addIPMap s) (calls s)).
Proof.
  intros Hv Hr. unfold deletedBody, index. simpl. rewrite Hv. simpl.
  by rewrite decide_True.
Qed.

(** Each loop body leaves the call log alone. *)
Lemma deletedBody_calls decision s s' :
  deletedBody decision s = Some s' → calls s' = calls s.
Proof.
  unfold deletedBody. destruct (Value decision) as [v|]; simpl; [|done].
  case_decide; by intros [= <-].
Qed.

Lemma newBody_calls decision s s' :
  newBody decision s = Some s' → calls s' = calls s.
Proof.
  unfold newBody. destruct (Value decision) as [v|]; simpl; [|done].
  by intros [= <-].
Qed.

Lemma rangeLoop_calls {A} (body : A → State → option State) l s s' :
  (∀ x s1 s2, body x s1 = Some s2 → calls s2 = calls s1) →
  rangeLoop body l s = Some s' → calls s' = calls s.
Proof.
  intros Hbody.
  apply (rangeLoop_rel body (λ a b, calls b = calls a)); [done|congruence|].
  intros x s1 s2 _. apply Hbody.
Qed.

Lemma collect_calls streamDecision s s' :
  collect streamDecision s = Some s' → calls s' = calls s.
Proof.
  unfold collect. intros Hrun.
  destruct (rangeLoop deletedBody (Deleted streamDecision) s) as [s1|] eqn:Hd;
    simpl in Hrun; [|done].
  transitivity (calls s1).
  - eapply rangeLoop_calls; [|done]. intros x. apply newBody_calls.
  - eapply rangeLoop_calls; [|done]. intros x. apply deletedBody_calls.
Qed.

Lemma collectAll_calls batches s s' :
  collectAll batches s = Some s' → calls s' = calls s.
Proof. apply rangeLoop_calls. intros x. apply collect_calls. Qed.

(** ** The collector, loop by loop *)

Lemma resolvable_lookup m v : resolvable m v ↔ ∃ r, m !! v = Some r ∧ r ≠ "".
Proof.
  unfold resolvable, index. destruct (m !! v) as [r|]; simpl.
  - split; [by exists r|]. by intros (? & [= <-] & ?).
  - split; [done|]. by intros (? & ? & ?).
Qed.

Lemma index_delete_ne m v k : k ≠ v → index (delete v m) k = index m k.
Proof. intros Hne. unfold index. by rewrite lookup_delete_ne. Qed.

Lemma resolvable_delete_eq m v : ¬ resolvable (delete v m) v.
Proof. unfold resolvable, index. rewrite lookup_delete_eq. tauto. Qed.

Lemma resolvable_delete_ne m v k :
  k ≠ v → resolvable (delete v m) k ↔ resolvable m k.
Proof. intros Hne. unfold resolvable. by rewrite index_delete_ne. Qed.

(** The loop over the deleted decisions: the address index loses exactly
    the deleted values that pass the test of line 84, and the delete map
    gains exactly their identifiers. *)
Lemma deletedLoop_spec ds s s' :
  rangeLoop deletedBody ds s = Some s' →
  addIPMap s' = addIPMap s ∧
  (∀ k, cloudflareIDByIP s' !! k =
        if decide (k ∈ omap Value ds ∧ resolvable (cloudflareIDByIP s) k)
        then None else cloudflareIDByIP s !! k) ∧
  (∀ q, is_Some (deleteIPMap s' !! q) ↔
        is_Some (deleteIPMap s !! q) ∨
        ∃ v, v ∈ omap Value ds ∧ resolvable (cloudflareIDByIP s) v ∧
             index (cloudflareIDByIP s) v = ID q).
Proof.
  revert s. induction ds as [|d ds IH]; intros s Hrun; simpl in Hrun.
  - injection Hrun as <-. split_and!; [done|..].
    + intros k. rewrite decide_False; [done|]. intros [Hk _].
      by apply elem_of_nil in Hk.
    + intros q. split; [by left|]. intros [?|(v & Hv & _)]; [done|].
      by apply elem_of_nil in Hv.
  - destruct (deletedBody d s) as [s1|] eqn:Hd; simpl in Hrun; [|done].
    destruct (IH _ Hrun) as (Hadd & Hidx & Hdel). clear IH Hrun.
    unfold deletedBody in Hd. destruct d as [[v|]]; simpl in Hd; [|done].
    simpl. fold (resolvable (cloudflareIDByIP s) v) in Hd.
    destruct (decide (resolvable (cloudflareIDByIP s) v)) as [Hres|Hres];
      injection Hd as <-; simpl in *.
    + split_and!; [done|..].
      * intros k. rewrite Hidx. destruct (decide (k = v)) as [->|Hne].
        -- rewrite lookup_delete_eq.
           assert (v ∈ v :: omap Value ds ∧ resolvable (cloudflareIDByIP s) v)
             by (split; [left|done]).
           by repeat case_decide.
        -- rewrite lookup_delete_ne by done.
           apply decide_ext. rewrite resolvable_delete_ne by done.
           rewrite elem_of_cons. tauto.
      * intros q. rewrite Hdel. clear Hdel Hidx.
        destruct (decide (q = mkDeleteItemRequest (index (cloudflareIDByIP s) v)))
          as [->|Hq].
        -- rewrite lookup_insert_eq. simpl. split; [|by eauto].
           intros _. right. exists v. split_and!; [left|done|done].
        -- rewrite lookup_insert_ne by done. split.
           ++ intros [?|(w & Hw & Hrw & Hiw)]; [by left|]. right. exists w.
              assert (w ≠ v) as Hne.
              { intros ->. by apply resolvable_delete_eq in Hrw. }
              rewrite resolvable_delete_ne in Hrw by done.
              rewrite index_delete_ne in Hiw by done.
              split_and!; [by right|done|done].
           ++ intros [?|(w & Hw & Hrw & Hiw)]; [by left|].
              assert (w ≠ v) as Hne.
              { intros ->. destruct Hq. destruct q; simpl in *. by rewrite Hiw. }
              apply elem_of_cons in Hw as [->|Hw]; [done|].
              right. exists w.
              rewrite resolvable_delete_ne, index_delete_ne by done. done.
    + split_and!; [done|..].
      * intros k. rewrite Hidx. apply decide_ext. rewrite elem_of_cons.
        split; [tauto|]. intros [[->|Hk] Hr]; [done|done].
      * intros q. rewrite Hdel. split.
        -- intros [?|(w & Hw & Hrw & Hiw)]; [by left|]. right. exists w.
           split_and!; [by right|done|done].
        -- intros [?|(w & Hw & Hrw & Hiw)]; [by left|]. right. exists w.
           apply elem_of_cons in Hw as [->|Hw]; [done|]. done.
Qed.

(** The loop over the new decisions: the add map gains exactly the
    requests [{IP: v, Comment: annotation}] of the new values. *)
Lemma newLoop_spec ns s s' :
  rangeLoop newBody ns s = Some s' →
  cloudflareIDByIP s' = cloudflareIDByIP s ∧
  deleteIPMap s' = deleteIPMap s ∧
  (∀ q, is_Some (addIPMap s' !! q) ↔
        is_Some (addIPMap s !! q) ∨
        (IP q ∈ omap Value ns ∧ Comment q = annotation)).
Proof.
  revert s. induction ns as [|d ns IH]; intros s Hrun; simpl in Hrun.
  - injection Hrun as <-. split_and!; [done..|].
    intros q. split; [by left|]. intros [?|[Hq _]]; [done|].
    by apply elem_of_nil in Hq.
  - destruct (newBody d s) as [s1|] eqn:Hd; simpl in Hrun; [|done].
    destruct (IH _ Hrun) as (Hidx & Hdel & Hadd). clear IH Hrun.
    unfold newBody in Hd. destruct d as [[v|]]; simpl in Hd; [|done].
    injection Hd as <-. simpl in *. split_and!; [done..|].
    intros q. rewrite Hadd. clear Hadd.
    destruct (decide (q = mkCreateRequest v annotation)) as [->|Hq].
    + rewrite lookup_insert_eq. simpl. split; [|by eauto].
      intros _. right. split; [left|done].
    + rewrite lookup_insert_ne by done. rewrite elem_of_cons.
      split; [tauto|]. intros [?|[[Hv|Hv] Hc]]; [by left| |by right].
      destruct Hq. destruct q; simpl in *. by subst.
Qed.

(** ** The collector over a window *)

Lemma resolvable_ext m1 m2 k : m1 !! k = m2 !! k → resolvable m1 k ↔ resolvable m2 k.
Proof. intros Heq. unfold resolvable, index. by rewrite Heq. Qed.

Lemma index_ext m1 m2 k : m1 !! k = m2 !! k → index m1 k = index m2 k.
Proof. intros Heq. unfold index. by rewrite Heq. Qed.

Lemma collected_refl s : collected [] [] s s.
Proof.
  split_and!; [done|..].
  - intros k. rewrite decide_False; [done|]. intros [Hk _]. by apply elem_of_nil in Hk.
  - intros q. split; [by left|]. intros [?|(v & Hv & _)]; [done|].
    by apply elem_of_nil in Hv.
  - intros q. split; [by left|]. intros [?|[Hq _]]; [done|].
    by apply elem_of_nil in Hq.
Qed.

Lemma collected_trans dv1 nv1 dv2 nv2 s s1 s2 :
  collected dv1 nv1 s s1 → collected dv2 nv2 s1 s2 →
  collected (dv1 ++ dv2) (nv1 ++ nv2) s s2.
Proof.
  intros (Hc1 & Hi1 & Hd1 & Ha1) (Hc2 & Hi2 & Hd2 & Ha2).
  split_and!.
  - congruence.
  - intros k. rewrite Hi2. pose proof (Hi1 k) as Hk.
    destruct (decide (k ∈ dv1 ∧ resolvable (cloudflareIDByIP s) k)) as [[Hin Hr]|Hn].
    + rewrite Hk. destruct (decide (k ∈ dv1 ++ dv2 ∧ _)) as [_|Hn].
      * by case_decide.
      * destruct Hn. split; [apply elem_of_app; by left|done].
    + rewrite Hk. apply decide_ext.
      rewrite (resolvable_ext _ _ k Hk), elem_of_app. tauto.
  - intros q. rewrite Hd2, Hd1. clear Hd1 Hd2 Ha1 Ha2. split.
    + intros [[?|(v & Hv & Hr & Hi)]|(v & Hv & Hr & Hi)]; [by left|right; exists v..].
      * split_and!; [apply elem_of_app; by left|done|done].
      * pose proof (Hi1 v) as Hk.
        destruct (decide (v ∈ dv1 ∧ resolvable (cloudflareIDByIP s) v)) as [[Hin Hr']|Hn].
        { unfold resolvable, index in Hr. by rewrite Hk in Hr. }
        rewrite (resolvable_ext _ _ v Hk) in Hr. rewrite (index_ext _ _ v Hk) in Hi.
        split_and!; [apply elem_of_app; by right|done|done].
    + intros [?|(v & Hv & Hr & Hi)]; [by left; left|].
      destruct (decide (v ∈ dv1)) as [Hin|Hnin].
      { left. right. by exists v. }
      apply elem_of_app in Hv as [?|Hv]; [done|].
      right. exists v. pose proof (Hi1 v) as Hk.
      rewrite decide_False in Hk by tauto.
      rewrite (resolvable_ext _ _ v Hk), (index_ext _ _ v Hk). done.
  - intros q. rewrite Ha2, Ha1, elem_of_app. tauto.
Qed.

Lemma deletedLoop_collected ds s s' :
  rangeLoop deletedBody ds s = Some s' → collected (omap Value ds) [] s s'.
Proof.
  intros Hrun. destruct (deletedLoop_spec _ _ _ Hrun) as (Ha & Hi & Hd).
  split_and!; [|done|done|].
  - eapply rangeLoop_calls; [|done]. intros x. apply deletedBody_calls.
  - intros q. rewrite Ha. split; [by left|]. intros [?|[Hq _]]; [done|].
    by apply elem_of_nil in Hq.
Qed.

Lemma newLoop_collected ns s s' :
  rangeLoop newBody ns s = Some s' → collected [] (omap Value ns) s s'.
Proof.
  intros Hrun. destruct (newLoop_spec _ _ _ Hrun) as (Hi & Hd & Ha).
  split_and!; [| | |done].
  - eapply rangeLoop_calls; [|done]. intros x. apply newBody_calls.
  - intros k. rewrite Hi. rewrite decide_False; [done|]. intros [Hk _].
    by apply elem_of_nil in Hk.
  - intros q. rewrite Hd. split; [by left|]. intros [?|(v & Hv & _)]; [done|].
    by apply elem_of_nil in Hv.
Qed.

(** One batch: lines 83-95 meet the contract for the values of the batch. *)
Lemma collect_collected streamDecision s s' :
  collect streamDecision s = Some s' →
  collected (omap Value (Deleted streamDecision))
            (omap Value (New streamDecision)) s s'.
Proof.
  unfold collect. intros Hrun.
  destruct (rangeLoop deletedBody (Deleted streamDecision) s) as [s1|] eqn:Hd;
    simpl in Hrun; [|done].
  apply deletedLoop_collected in Hd. apply newLoop_collected in Hrun.
  pose proof (collected_trans _ _ _ _ _ _ _ Hd Hrun) as Hc.
  by rewrite app_nil_r in Hc.
Qed.

(** A window of batches meets the contract for all its values. *)
Lemma collectAll_collected batches s s' :
  collectAll batches s = Some s' →
  collected (deletedValues batches) (newValues batches) s s'.
Proof.
  unfold collectAll, deletedValues, newValues.
  revert s. induction batches as [|b bs IH]; intros s Hrun; simpl in Hrun.
  - injection Hrun as <-. apply collected_refl.
  - destruct (collect b s) as [s1|] eqn:Hb; simpl in Hrun; [|done].
    apply collect_collected in Hb. apply IH in Hrun.
    rewrite !bind_cons, !omap_app.
    by eapply collected_trans.
Qed.

(** ** Recording deleted decisions *)

(** C1, as the specification words it, does not hold: an address that is a
    key of the index with the empty identifier is not resolved.  The state
    is the one the ticker-driven loop reaches from [initial] when
    Cloudflare answers the create call with an item whose [ID] is empty;
    the deleted decision then leaves the state as it is: nothing is added
    to the delete map, and the address stays in the index. *)
Lemma C1_empty_identifier_not_resolved :
  ∃ s,
    run collect
        [Stream (newOf "1.2.3.4");
         Tick (Success [mkIPListItem "1.2.3.4" ""]) (Success [])]
        initial = Running s ∧
    cloudflareIDByIP s !! "1.2.3.4" = Some "" ∧
    deletedBody (mkDecision (Some "1.2.3.4")) s = Some s ∧
    deleteIPMap s !! mkDeleteItemRequest "" = None.
Proof.
  eexists. split; [vm_compute; reflexivity|].
  split_and!; vm_compute; reflexivity.
Qed.

(** C1, amended: a deleted decision whose value the index maps to a
    non-empty identifier [r] adds [{ID: r}] to the delete map and removes
    the value from the index; a deleted decision whose value is absent
    from the index, or mapped to the empty identifier, changes nothing.
    Over a whole batch of decisions with values the collector does not
    panic, makes no call on the client, and meets the contract
    [collected] for the values of the batch. *)
Theorem C1_deleted_decisions_recorded :
  (∀ v s, ∃ s',
      deletedBody (mkDecision (Some v)) s = Some s' ∧
      calls s' = calls s ∧
      addIPMap s' = addIPMap s ∧
      (∀ r, cloudflareIDByIP s !! v = Some r → r ≠ "" →
            deleteIPMap s' = <[mkDeleteItemRequest r := true]> (deleteIPMap s) ∧
            cloudflareIDByIP s' = delete v (cloudflareIDByIP s)) ∧
      (cloudflareIDByIP s !! v = None ∨ cloudflareIDByIP s !! v = Some "" →
       s' = s)) ∧
  (∀ streamDecision s, wellFormed streamDecision → ∃ s',
      collect streamDecision s = Some s' ∧
      calls s' = calls s ∧
      collected (omap Value (Deleted streamDecision))
                (omap Value (New streamDecision)) s s').
Proof.
  split.
  - intros v s. destruct (cloudflareIDByIP s !! v) as [r|] eqn:Hv.
    + destruct (decide (r = "")) as [->|Hr].
      * exists s. rewrite deletedBody_empty_id by done.
        split_and!; [done..| |done]. by intros r [= <-] ?.
      * eexists. rewrite (deletedBody_resolved v r) by done.
        split_and!; [done..| |].
        -- by intros r' [= <-] _.
        -- intros [?|[= ?]]; done.
    + exists s. rewrite deletedBody_absent by done.
      split_and!; [done..| |done]. by intros r ?.
  - intros b s Hwf. destruct (collect_wellFormed b s Hwf) as [s' Hrun].
    exists s'. split_and!; [done| |].
    + by eapply collect_calls.
    + by apply collect_collected.
Qed.

Lemma C1_deleted_decisions_recorded_witness :
  let s := mkState {["10.0.0.1" := "R1"]} ∅ ∅ [] in
  wellFormed (deletedOf "10.0.0.1") ∧
  ∃ s', collect (deletedOf "10.0.0.1") s = Some s' ∧
        calls s' = calls s ∧
        collected ["10.0.0.1"] [] s s'.
Proof.
  intros s.
  assert (wellFormed (deletedOf "10.0.0.1")) as Hwf.
  { split; simpl; repeat constructor. by exists "10.0.0.1". }
  split; [exact Hwf|].
  exact (proj2 C1_deleted_decisions_recorded (deletedOf "10.0.0.1") s Hwf).
Defined.

(** C4: a deleted decision whose value is not a key of the index is
    recorded without a panic and leaves the whole state as it is, so it adds
    no delete request and makes no call; the same holds for a whole batch
    of such decisions. *)
Theorem C4_absent_deleted_is_noop (vs : list string) (s : State) :
  Forall (λ v, cloudflareIDByIP s !! v = None) vs →
  Forall (λ v, deletedBody (mkDecision (Some v)) s = Some s) vs ∧
  collect (mkStream (mkDecision ∘ Some <$> vs) []) s = Some s.
Proof.
  intros Habs. split.
  - eapply Forall_impl; [exact Habs|]. intros v. apply deletedBody_absent.
  - unfold collect. simpl.
    assert (rangeLoop deletedBody (mkDecision ∘ Some <$> vs) s = Some s) as ->; [|done].
    induction Habs as [|v vs Hv _ IH]; simpl; [done|].
    by rewrite (deletedBody_absent v s Hv).
Qed.

Lemma C4_absent_deleted_is_noop_witness :
  let s := mkState {["10.0.0.1" := "R1"]} ∅ ∅ [] in
  Forall (λ v, cloudflareIDByIP s !! v = None) ["10.0.0.2"] ∧
  collect (deletedOf "10.0.0.2") s = Some s.
Proof.
  intros s.
  assert (Forall (λ v, cloudflareIDByIP s !! v = None) ["10.0.0.2"]) as Habs.
  { repeat constructor. }
  split; [exact Habs|].
  exact (proj2 (C4_absent_deleted_is_noop ["10.0.0.2"] s Habs)).
Defined.

(** ** What a flush sends *)

(** A flush with a non-empty add slice makes the create call first, with
    exactly that slice. *)
Lemma flushWith_log_create addIPs deleteIPs createReply deleteReply s :
  0 < length addIPs →
  ∃ rest, logOf (flushWith addIPs deleteIPs createReply deleteReply s) =
          calls s ++ CreateIPListItems addIPs :: rest.
Proof.
  intros Hlen. unfold flushWith, createPhase. rewrite decide_True by done.
  destruct createReply as [ipItems|err]; simpl; [|by exists []].
  unfold deletePhase. simpl. case_decide; [|by exists []].
  destruct deleteReply as [items|err]; simpl;
    exists [DeleteIPListItems deleteIPs]; by rewrite <- app_assoc.
Qed.

(** A flush whose create call succeeded, or was not needed, makes the
    delete call with exactly the delete slice when that slice is not empty. *)
Lemma flushWith_log_delete addIPs deleteIPs ipItems deleteReply s :
  0 < length deleteIPs →
  ∃ before, logOf (flushWith addIPs deleteIPs (Success ipItems) deleteReply s) =
            before ++ [DeleteIPListItems deleteIPs].
Proof.
  intros Hlen. unfold flushWith, createPhase, deletePhase.
  case_decide; simpl; rewrite decide_True by done;
    destruct deleteReply as [items|err]; simpl; by eexists.
Qed.

(** ** Windows of decisions *)

(** C2: in a window that starts with an empty add map, however many times
    the new decision for an address occurs (once, twice, more), every slice
    the flush builds by ranging over the add map holds exactly one create
    request for that address, the annotated one, and that slice is what
    the create call carries.  The collector does not panic on decisions
    that have values. *)
Theorem C2_one_create_request_per_address
    (batches : list DecisionsStreamResponse) (ip : string)
    (idx : gmap string string) (dels : gmap IPListItemDeleteItemRequest bool)
    (log : list APICall) :
  Forall wellFormed batches →
  ip ∈ newValues batches →
  ∃ s, collectAll batches (mkState idx dels ∅ log) = Some s ∧
    ∀ addIPs, ranges (addIPMap s) addIPs →
      requestsFor ip addIPs = [mkCreateRequest ip annotation] ∧
      ∀ deleteIPs createReply deleteReply, ∃ rest,
        logOf (flushWith addIPs deleteIPs createReply deleteReply s) =
        log ++ CreateIPListItems addIPs :: rest.
Proof.
  intros Hwf Hin.
  destruct (collectAll_wellFormed batches (mkState idx dels ∅ log) Hwf) as [s Hrun].
  exists s. split; [done|]. intros addIPs Hranges.
  destruct (collectAll_collected _ _ _ Hrun) as (Hcalls & _ & _ & Hadd).
  simpl in Hcalls, Hadd.
  assert (is_Some (addIPMap s !! mkCreateRequest ip annotation)) as Hsome.
  { apply Hadd. right. done. }
  split.
  - unfold requestsFor.
    apply (ranges_filter_unique _ (addIPMap s)); [done|done|done|].
    intros q Hq Hip. apply Hadd in Hq as [Hq|[_ Hc]].
    + rewrite lookup_empty in Hq. by destruct Hq.
    + destruct q; simpl in *. by subst.
  - intros deleteIPs createReply deleteReply. rewrite <- Hcalls.
    apply flushWith_log_create.
    apply (ranges_elem_of _ _ _ Hranges) in Hsome.
    destruct addIPs; [by apply elem_of_nil in Hsome|simpl; lia].
Qed.

Lemma C2_one_create_request_per_address_witness :
  let batches := [newOf "10.0.0.1"; newOf "10.0.0.1"] in
  Forall wellFormed batches ∧ "10.0.0.1" ∈ newValues batches ∧
  ∃ s, collectAll batches initial = Some s ∧
    ∀ addIPs, ranges (addIPMap s) addIPs →
      requestsFor "10.0.0.1" addIPs = [mkCreateRequest "10.0.0.1" annotation] ∧
      ∀ deleteIPs createReply deleteReply, ∃ rest,
        logOf (flushWith addIPs deleteIPs createReply deleteReply s) =
        [] ++ CreateIPListItems addIPs :: rest.
Proof.
  intros batches.
  assert (Forall wellFormed batches) as Hwf.
  { repeat constructor; by exists "10.0.0.1". }
  assert ("10.0.0.1" ∈ newValues batches) as Hin.
  { vm_compute. left. }
  split; [exact Hwf|]. split; [exact Hin|].
  exact (C2_one_create_request_per_address batches "10.0.0.1" ∅ ∅ [] Hwf Hin).
Defined.

(** The same in the stream-driven program, where a window is one batch:
    the create call of the iteration carries exactly one request for an
    address the batch adds. *)
Lemma iteration_one_create_request_per_address
    streamDecision ip createReply deleteReply s :
  wellFormed streamDecision →
  ip ∈ omap Value (New streamDecision) →
  ∃ addIps rest,
    logOf (iteration streamDecision createReply deleteReply s) =
      calls s ++ CreateIPListItems addIps :: rest ∧
    requestsFor ip addIps = [mkCreateRequest ip annotation].
Proof.
  intros Hwf Hin. unfold iteration.
  destruct (collect_wellFormed streamDecision (resetPending s) Hwf) as [s1 Hrun].
  rewrite Hrun.
  destruct (collect_collected _ _ _ Hrun) as (Hcalls & _ & _ & Hadd).
  simpl in Hcalls, Hadd.
  assert (is_Some (addIPMap s1 !! mkCreateRequest ip annotation)) as Hsome.
  { apply Hadd. by right. }
  exists (keys (addIPMap s1)).
  assert (0 < length (keys (addIPMap s1))) as Hlen.
  { apply elem_of_keys in Hsome.
    destruct (keys (addIPMap s1)); [by apply elem_of_nil in Hsome|simpl; lia]. }
  assert (requestsFor ip (keys (addIPMap s1)) = [mkCreateRequest ip annotation]) as Hone.
  { unfold requestsFor.
    apply (ranges_filter_unique _ (addIPMap s1)); [apply ranges_keys|done|done|].
    intros q Hq Hip. apply Hadd in Hq as [Hq|[_ Hc]].
    - rewrite lookup_empty in Hq. by destruct Hq.
    - destruct q; simpl in *. by subst. }
  unfold createPhase. rewrite decide_True by done. rewrite Hcalls.
  destruct createReply as [ipItems|err]; simpl.
  - unfold deleteUnchecked. simpl. case_decide; simpl.
    + eexists. split; [|done]. by rewrite <- app_assoc.
    + by exists [].
  - by exists [].
Qed.

(** C5, as the specification words it, does not hold for every address of
    the index: when the index maps the address to the empty identifier (the
    state reached when Cloudflare answered a create call with an item whose
    [ID] is empty), the window new, new, deleted yields no delete request
    at all. *)
Lemma C5_empty_identifier_no_delete_request :
  ∃ s0 s,
    run collect
        [Stream (newOf "10.0.0.1");
         Tick (Success [mkIPListItem "10.0.0.1" ""]) (Success [])]
        initial = Running s0 ∧
    cloudflareIDByIP s0 !! "10.0.0.1" = Some "" ∧
    collectAll [newOf "10.0.0.1"; newOf "10.0.0.1"; deletedOf "10.0.0.1"] s0
      = Some s ∧
    keys (deleteIPMap s) = [] ∧
    keys (addIPMap s) = [mkCreateRequest "10.0.0.1" annotation].
Proof.
  do 2 eexists. split; [vm_compute; reflexivity|].
  split_and!; vm_compute; reflexivity.
Qed.

(** C5, amended: for an address [ip] that the index maps to a non-empty
    identifier [r] when the window starts, recording new, new, deleted for
    [ip] (as three batches, or as one batch, whose deleted decisions the
    collector handles first) removes [ip] from the index and leaves
    exactly one delete request, [{ID: r}], and exactly one create request
    for [ip]: the pending add is not cancelled by the deletion. *)
Theorem C5_churn_on_synced_address
    (ip r : string) (idx : gmap string string) (log : list APICall) :
  idx !! ip = Some r → r ≠ "" →
  let s := mkState (delete ip idx)
                   {[mkDeleteItemRequest r := true]}
                   {[mkCreateRequest ip annotation := true]} log in
  collectAll [newOf ip; newOf ip; deletedOf ip] (mkState idx ∅ ∅ log) = Some s ∧
  collect (mkStream [mkDecision (Some ip)]
                    [mkDecision (Some ip); mkDecision (Some ip)])
          (mkState idx ∅ ∅ log) = Some s ∧
  (∀ deleteIPs, ranges (deleteIPMap s) deleteIPs →
                deleteIPs = [mkDeleteItemRequest r]) ∧
  (∀ addIPs, ranges (addIPMap s) addIPs →
             addIPs = [mkCreateRequest ip annotation]).
Proof.
  intros Hidx Hr s. split_and!.
  - unfold collectAll, collect. simpl.
    rewrite (deletedBody_resolved ip r) by done. simpl.
    by rewrite insert_insert_eq, !insert_empty.
  - unfold collect. simpl.
    rewrite (deletedBody_resolved ip r) by done. simpl.
    by rewrite insert_insert_eq, !insert_empty.
  - intros deleteIPs. apply ranges_singleton.
  - intros addIPs. apply ranges_singleton.
Qed.

Lemma C5_churn_on_synced_address_witness :
  let idx : gmap string string := {["10.0.0.1" := "R1"]} in
  idx !! "10.0.0.1" = Some "R1" ∧ "R1" ≠ "" ∧
  collectAll [newOf "10.0.0.1"; newOf "10.0.0.1"; deletedOf "10.0.0.1"]
             (mkState idx ∅ ∅ []) =
    Some (mkState (delete "10.0.0.1" idx)
                  {[mkDeleteItemRequest "R1" := true]}
                  {[mkCreateRequest "10.0.0.1" annotation := true]} []).
Proof.
  intros idx.
  assert (idx !! "10.0.0.1" = Some "R1") as Hidx by reflexivity.
  assert ("R1" ≠ "") as Hr by discriminate.
  split; [exact Hidx|]. split; [exact Hr|].
  exact (proj1 (C5_churn_on_synced_address "10.0.0.1" "R1" idx [] Hidx Hr)).
Defined.

(** C10, as stated, does not hold for every address of the index: with the
    empty identifier in the index, two deleted decisions for the address
    leave no entry in the delete map, not one. *)
Lemma C10_empty_identifier_no_entry :
  ∃ s0 s,
    run collect
        [Stream (newOf "10.0.0.1");
         Tick (Success [mkIPListItem "10.0.0.1" ""]) (Success [])]
        initial = Running s0 ∧
    cloudflareIDByIP s0 !! "10.0.0.1" = Some "" ∧
    collectAll [deletedOf "10.0.0.1"; deletedOf "10.0.0.1"] s0 = Some s ∧
    requestsOf "" (keys (deleteIPMap s)) = [] ∧
    cloudflareIDByIP s !! "10.0.0.1" = Some "".
Proof.
  do 2 eexists. split; [vm_compute; reflexivity|].
  split_and!; vm_compute; reflexivity.
Qed.

(** C10, amended: for an address [ip] that the index maps to a non-empty
    identifier [r] when the window starts, a window with one deleted
    decision for [ip], or two, or more, ends with [ip] out of the index (a
    further deleted decision for it changes nothing), and every slice the
    flush builds by ranging over the delete map has no repeated request
    and exactly one request carrying [r]. *)
Theorem C10_repeated_delete_single_request
    (batches : list DecisionsStreamResponse) (ip r : string) (s0 : State) :
  Forall wellFormed batches →
  cloudflareIDByIP s0 !! ip = Some r → r ≠ "" →
  ip ∈ deletedValues batches →
  ∃ s, collectAll batches s0 = Some s ∧
    cloudflareIDByIP s !! ip = None ∧
    deletedBody (mkDecision (Some ip)) s = Some s ∧
    ∀ deleteIPs, ranges (deleteIPMap s) deleteIPs →
      NoDup deleteIPs ∧ requestsOf r deleteIPs = [mkDeleteItemRequest r].
Proof.
  intros Hwf Hidx Hr Hin.
  destruct (collectAll_wellFormed batches s0 Hwf) as [s Hrun].
  exists s. split; [done|].
  destruct (collectAll_collected _ _ _ Hrun) as (_ & Hi & Hd & _).
  assert (resolvable (cloudflareIDByIP s0) ip) as Hres.
  { apply resolvable_lookup. by exists r. }
  assert (cloudflareIDByIP s !! ip = None) as Hgone.
  { rewrite Hi. by rewrite decide_True. }
  split_and!; [done|by apply deletedBody_absent|].
  intros deleteIPs Hranges. split; [by eapply ranges_NoDup|].
  unfold requestsOf.
  apply (ranges_filter_unique _ (deleteIPMap s)); [done| |done|].
  - apply Hd. right. exists ip. split_and!; [done..|].
    unfold index. by rewrite Hidx.
  - intros q _ Hq. destruct q; simpl in *. by subst.
Qed.

Lemma C10_repeated_delete_single_request_witness :
  let s0 := mkState {["10.0.0.1" := "R1"]} ∅ ∅ [] in
  let batches := [deletedOf "10.0.0.1"; deletedOf "10.0.0.1"] in
  Forall wellFormed batches ∧
  cloudflareIDByIP s0 !! "10.0.0.1" = Some "R1" ∧ "R1" ≠ "" ∧
  "10.0.0.1" ∈ deletedValues batches ∧
  ∃ s, collectAll batches s0 = Some s ∧
    cloudflareIDByIP s !! "10.0.0.1" = None ∧
    deletedBody (mkDecision (Some "10.0.0.1")) s = Some s ∧
    ∀ deleteIPs, ranges (deleteIPMap s) deleteIPs →
      NoDup deleteIPs ∧ requestsOf "R1" deleteIPs = [mkDeleteItemRequest "R1"].
Proof.
  intros s0 batches.
  assert (Forall wellFormed batches) as Hwf.
  { repeat constructor; by exists "10.0.0.1". }
  assert (cloudflareIDByIP s0 !! "10.0.0.1" = Some "R1") as Hidx by reflexivity.
  assert ("R1" ≠ "") as Hr by discriminate.
  assert ("10.0.0.1" ∈ deletedValues batches) as Hin.
  { vm_compute. left. }
  split; [exact Hwf|]. split; [exact Hidx|]. split; [exact Hr|].
  split; [exact Hin|].
  exact (C10_repeated_delete_single_request batches "10.0.0.1" "R1" s0 Hwf Hidx Hr Hin).
Defined.

(** ** The flush and the address index *)

(** After the loop at lines 117-119 an address is mapped to the identifier
    of the last item returned for it, and keeps its entry when no item was
    returned for it. *)
Lemma recordItems_lookup ipItems m ip :
  recordItems ipItems m !! ip =
    match lastItemFor ip ipItems with
    | Some ipItem => Some (ItemID ipItem)
    | None => m !! ip
    end.
Proof.
  unfold recordItems, lastItemFor.
  revert m. induction ipItems as [|x l IH]; intros m; simpl; [done|].
  rewrite IH. clear IH. rewrite filter_cons.
  destruct (decide (ItemIP x = ip)) as [Hx|Hx].
  - destruct (filter _ l) as [|y l'] eqn:Hf; simpl.
    + by rewrite <- Hx, lookup_insert_eq.
    + destruct (last (y :: l')) as [z|] eqn:Hlast; [done|].
      by apply last_None in Hlast.
  - by rewrite lookup_insert_ne.
Qed.

(** A flush that goes on has reset both request maps, and has changed the
    index by the items of the create reply, if the create call was made. *)
Lemma flushWith_running addIPs deleteIPs createReply deleteReply s s' :
  flushWith addIPs deleteIPs createReply deleteReply s = Running s' →
  addIPMap s' = ∅ ∧ deleteIPMap s' = ∅ ∧
  ((addIPs = [] ∧ cloudflareIDByIP s' = cloudflareIDByIP s) ∨
   (0 < length addIPs ∧ ∃ ipItems, createReply = Success ipItems ∧
      cloudflareIDByIP s' = recordItems ipItems (cloudflareIDByIP s))).
Proof.
  unfold flushWith, createPhase, deletePhase.
  destruct (decide (0 < length addIPs)) as [Hadd|Hadd].
  - destruct createReply as [ipItems|err]; simpl; [|done].
    case_decide; [destruct deleteReply as [items|err]; simpl; [|done]|];
      intros [= <-]; simpl; split_and!; try done; right; eauto.
  - assert (addIPs = []) as -> by (destruct addIPs; [done|simpl in Hadd; lia]).
    simpl.
    case_decide; [destruct deleteReply as [items|err]; simpl; [|done]|];
      intros [= <-]; simpl; split_and!; try done; by left.
Qed.

(** A flush whose calls succeed goes on. *)
Lemma flushWith_success addIPs deleteIPs ipItems items s :
  ∃ s', flushWith addIPs deleteIPs (Success ipItems) (Success items) s = Running s'.
Proof.
  unfold flushWith, createPhase, deletePhase.
  repeat (case_decide; simpl); by eexists.
Qed.

(** C6: a flush whose calls succeed goes on, and the state a flush goes on
    with has both request maps empty: ranging over either gives the empty
    slice, and a flush run again at once makes no call and changes
    nothing. *)
Theorem C6_flush_clears_pending
    (s : State) (addIPs : list IPListItemCreateRequest)
    (deleteIPs : list IPListItemDeleteItemRequest) :
  (∀ ipItems items, ∃ s',
      flushWith addIPs deleteIPs (Success ipItems) (Success items) s = Running s') ∧
  (∀ createReply deleteReply s',
      flushWith addIPs deleteIPs createReply deleteReply s = Running s' →
      addIPMap s' = ∅ ∧ deleteIPMap s' = ∅ ∧
      (∀ l, ranges (addIPMap s') l → l = []) ∧
      (∀ l, ranges (deleteIPMap s') l → l = []) ∧
      (∀ createReply' deleteReply', flush createReply' deleteReply' s' = Running s')).
Proof.
  split; [intros; apply flushWith_success|].
  intros createReply deleteReply s' Hflush.
  destruct (flushWith_running _ _ _ _ _ _ Hflush) as (Ha & Hd & _).
  split_and!; [done|done|..].
  - intros l. rewrite Ha. apply ranges_empty.
  - intros l. rewrite Hd. apply ranges_empty.
  - intros cr dr. unfold flush. rewrite Ha, Hd.
    destruct s'; simpl in *; subst. reflexivity.
Qed.

Lemma C6_flush_clears_pending_witness :
  let s := mkState ∅ {[mkDeleteItemRequest "R0" := true]}
                   {[mkCreateRequest "10.0.0.1" annotation := true]} [] in
  let s' := mkState {["10.0.0.1" := "R1"]} ∅ ∅
              [CreateIPListItems [mkCreateRequest "10.0.0.1" annotation];
               DeleteIPListItems [mkDeleteItemRequest "R0"]] in
  flushWith (keys (addIPMap s)) (keys (deleteIPMap s))
            (Success [mkIPListItem "10.0.0.1" "R1"]) (Success []) s = Running s' ∧
  addIPMap s' = ∅ ∧ deleteIPMap s' = ∅ ∧
  (∀ l, ranges (addIPMap s') l → l = []) ∧
  (∀ l, ranges (deleteIPMap s') l → l = []) ∧
  (∀ createReply' deleteReply', flush createReply' deleteReply' s' = Running s').
Proof.
  intros s s'.
  assert (flushWith (keys (addIPMap s)) (keys (deleteIPMap s))
            (Success [mkIPListItem "10.0.0.1" "R1"]) (Success []) s = Running s')
    as Hflush by (vm_compute; reflexivity).
  split; [exact Hflush|].
  exact (proj2 (C6_flush_clears_pending s (keys (addIPMap s)) (keys (deleteIPMap s)))
               _ _ s' Hflush).
Defined.

(** ** Errors of the client calls *)

(** In the ticker-driven program an error of either call ends the process
    at once, with no further call. *)
Lemma flushWith_create_error addIPs deleteIPs err deleteReply s :
  0 < length addIPs →
  flushWith addIPs deleteIPs (Failure err) deleteReply s =
    Exited (LogFatal err) (calls s ++ [CreateIPListItems addIPs]).
Proof. intros Hlen. unfold flushWith, createPhase. by rewrite decide_True. Qed.

Lemma flushWith_delete_error addIPs deleteIPs createReply err s s1 :
  createPhase addIPs createReply s = Running s1 →
  0 < length deleteIPs →
  flushWith addIPs deleteIPs createReply (Failure err) s =
    Exited (LogFatal err) (calls s1 ++ [DeleteIPListItems deleteIPs]).
Proof.
  intros Hcreate Hlen. unfold flushWith. rewrite Hcreate. simpl.
  unfold deletePhase. by rewrite decide_True.
Qed.

(** In the stream-driven program the reply of the delete call is never
    looked at. *)
Lemma iteration_ignores_delete_reply streamDecision createReply deleteReply deleteReply' s :
  iteration streamDecision createReply deleteReply s =
  iteration streamDecision createReply deleteReply' s.
Proof. reflexivity. Qed.

(** C7: the stream-driven program does not do what the claim says.  From
    [initial], a first batch adds an address and Cloudflare returns its
    identifier; a second batch deletes it and the delete call fails.  The
    iteration goes on as if the call had succeeded: the error is dropped,
    and the address is gone from the index although it is still on the
    remote list.  The ticker-driven program exits on the same replies. *)
Theorem C7_delete_error_is_dropped :
  let s1 := mkState {["10.0.0.1" := "R1"]} ∅
                    {[mkCreateRequest "10.0.0.1" annotation := true]}
                    [CreateIPListItems [mkCreateRequest "10.0.0.1" annotation]] in
  iteration (newOf "10.0.0.1") (Success [mkIPListItem "10.0.0.1" "R1"]) (Success [])
            initial = Running s1 ∧
  iteration (deletedOf "10.0.0.1") (Success []) (Failure "rate limited") s1 =
    Running (mkState ∅ {[mkDeleteItemRequest "R1" := true]} ∅
               [CreateIPListItems [mkCreateRequest "10.0.0.1" annotation];
                DeleteIPListItems [mkDeleteItemRequest "R1"]]) ∧
  run collect
      [Stream (newOf "10.0.0.1");
       Tick (Success [mkIPListItem "10.0.0.1" "R1"]) (Success []);
       Stream (deletedOf "10.0.0.1");
       Tick (Success []) (Failure "rate limited")]
      initial =
    Exited (LogFatal "rate limited")
           [CreateIPListItems [mkCreateRequest "10.0.0.1" annotation];
            DeleteIPListItems [mkDeleteItemRequest "R1"]].
Proof. split_and!; vm_compute; reflexivity. Qed.

(** ** Who changes the address index *)






(** ** The flush and the decision stream *)

Section SelectLoopFacts.
Variable CollectLAPIStream : DecisionsStreamResponse → State → option State.

(** The executable iteration is one of the iterations of the loop. *)
Lemma selectCase_selects e s :
  selects CollectLAPIStream s e (selectCase CollectLAPIStream e s).
Proof.
  destruct e as [|createReply deleteReply|streamDecision]; simpl.
  - constructor.
  - apply selects_tick; apply ranges_keys.
  - constructor.
Qed.

(** A batch is taken from the stream at the [select] and nowhere else. *)
Lemma step_stream_inv c streamDecision c' :
  step CollectLAPIStream c (StreamDelivers streamDecision) c' →
  ∃ s, c = AtSelect s ∧
       c' = controlOf (streamCase CollectLAPIStream streamDecision s).
Proof.
  inversion 1 as [|s b s' Hrun|s b Hrun| | | | | |]; subst;
    exists s; unfold streamCase; by rewrite Hrun.
Qed.

(** Inside a client call the goroutine takes the reply of that call. *)
Lemma step_inFlight_inv c i c' :
  inFlight c → step CollectLAPIStream c i c' →
  (∃ createReply, i = CreateReturns createReply) ∨
  (∃ deleteReply, i = DeleteReturns deleteReply).
Proof.
  intros Hc Hstep. inversion Hstep; subst; simpl in Hc; try done;
    [left|left|right|right]; by eexists.
Qed.

Lemma toDelete_AtSelect deleteIPs s s' :
  toDelete deleteIPs s = AtSelect s' → s' = resetPending s.
Proof. unfold toDelete. case_decide; [done|]. by intros [= <-]. Qed.

(** The [select] that follows a client call finds both request maps
    empty. *)
Lemma step_back_to_select c i s' :
  inFlight c → step CollectLAPIStream c i (AtSelect s') →
  addIPMap s' = ∅ ∧ deleteIPMap s' = ∅.
Proof.
  intros Hc Hstep. inversion Hstep; subst; simpl in Hc; try done.
  match goal with
  | Hto : toDelete _ _ = AtSelect _ |- _ => apply toDelete_AtSelect in Hto; by subst
  end.
Qed.

(** The steps of one tick are the [case <-cloudflareTicker.C] branch: the
    goroutine goes through the calls the branch makes and ends where
    [flushWith] says. *)
Lemma flushWith_steps s addIPs deleteIPs createReply deleteReply :
  ranges (addIPMap s) addIPs →
  ranges (deleteIPMap s) deleteIPs →
  steps CollectLAPIStream (AtSelect s)
        (TickerFires :: repliesAwaited addIPs deleteIPs createReply deleteReply)
        (controlOf (flushWith addIPs deleteIPs createReply deleteReply s)).
Proof.
  intros Hadd Hdel. unfold flushWith, createPhase, repliesAwaited.
  destruct addIPs as [|a addIPs].
  - apply ranges_nil_empty in Hadd. simpl.
    eapply steps_cons; [by apply (step_tick_skip _ s deleteIPs)|].
    unfold toDelete, deletePhase.
    destruct (decide (0 < length deleteIPs)); [|apply steps_nil].
    destruct deleteReply as [items|err]; simpl;
      (eapply steps_cons; [constructor|apply steps_nil]).
  - destruct (decide (0 < length (a :: addIPs))) as [_|Hn]; [|simpl in Hn; lia].
    eapply steps_cons; [apply step_tick_create; [done|simpl; lia]|].
    destruct createReply as [ipItems|err]; simpl.
    + eapply steps_cons; [by apply (step_create_done _ s _ ipItems deleteIPs)|].
      unfold toDelete, deletePhase. simpl.
      destruct (decide (0 < length deleteIPs)); [|apply steps_nil].
      destruct deleteReply as [items|err]; simpl;
        (eapply steps_cons; [constructor|apply steps_nil]).
    + eapply steps_cons; [constructor|apply steps_nil].
Qed.

End SelectLoopFacts.

(** C9, as stated, does not hold.  Here the loop has one pending add and
    the ticker fires: the goroutine is inside [CreateIPListItems].  From
    there no step takes a batch from the stream, whatever the batch. *)
Lemma C9_flush_in_flight_blocks_stream :
  let s := mkState ∅ ∅ {[mkCreateRequest "10.0.0.1" annotation := true]} [] in
  let c := InCreate [mkCreateRequest "10.0.0.1" annotation] s in
  run collect [Stream (newOf "10.0.0.1")] initial = Running s ∧
  step collect (AtSelect s) TickerFires c ∧
  inFlight c ∧
  ∀ streamDecision c', ¬ step collect c (StreamDelivers streamDecision) c'.
Proof.
  split_and!.
  - vm_compute. reflexivity.
  - apply step_tick_create; [|simpl; lia].
    unfold ranges, keys. simpl. by rewrite map_to_list_singleton.
  - exact I.
  - intros b c' Hstep. apply step_stream_inv in Hstep as (s' & Hs' & _). discriminate.
Qed.

(** C9, amended: the goroutine that makes the client calls is the one that
    reads the stream.  A batch is received only at the [select]; while a
    call of the flush is in flight the only input taken is the reply of
    that call, so a batch delivered meanwhile waits; when the flush is
    over the [select] is reached with both request maps empty, and the
    steps of the tick end where the flush of the loop ends. *)
Theorem C9_stream_waits_for_flush
    (CollectLAPIStream : DecisionsStreamResponse → State → option State) :
  (∀ c streamDecision c',
      step CollectLAPIStream c (StreamDelivers streamDecision) c' →
      ¬ inFlight c ∧
      ∃ s, c = AtSelect s ∧
           c' = controlOf (streamCase CollectLAPIStream streamDecision s)) ∧
  (∀ c i c',
      inFlight c → step CollectLAPIStream c i c' →
      (∃ createReply, i = CreateReturns createReply) ∨
      (∃ deleteReply, i = DeleteReturns deleteReply)) ∧
  (∀ c i s',
      inFlight c → step CollectLAPIStream c i (AtSelect s') →
      addIPMap s' = ∅ ∧ deleteIPMap s' = ∅) ∧
  (∀ s addIPs deleteIPs createReply deleteReply,
      ranges (addIPMap s) addIPs → ranges (deleteIPMap s) deleteIPs →
      steps CollectLAPIStream (AtSelect s)
            (TickerFires :: repliesAwaited addIPs deleteIPs createReply deleteReply)
            (controlOf (flushWith addIPs deleteIPs createReply deleteReply s))).
Proof.
  split_and!.
  - intros c b c' Hstep.
    destruct (step_stream_inv _ _ _ _ Hstep) as (s & -> & ->).
    split; [by intros []|by exists s].
  - apply step_inFlight_inv.
  - apply step_back_to_select.
  - apply flushWith_steps.
Qed.

Lemma C9_stream_waits_for_flush_witness :
  let s := mkState ∅ ∅ {[mkCreateRequest "10.0.0.1" annotation := true]} [] in
  step collect (AtSelect s) (StreamDelivers (newOf "10.0.0.2"))
       (AtSelect (mkState ∅ ∅
          {[mkCreateRequest "10.0.0.1" annotation := true;
            mkCreateRequest "10.0.0.2" annotation := true]} [])) ∧
  ¬ inFlight (AtSelect s).
Proof.
  intros s.
  assert (step collect (AtSelect s) (StreamDelivers (newOf "10.0.0.2"))
            (AtSelect (mkState ∅ ∅
               {[mkCreateRequest "10.0.0.1" annotation := true;
                 mkCreateRequest "10.0.0.2" annotation := true]} []))) as Hstep.
  { apply step_stream. vm_compute. reflexivity. }
  split; [exact Hstep|].
  exact (proj1 (proj1 (C9_stream_waits_for_flush collect) _ _ _ Hstep)).
Defined.

(** ** The end-to-end scenario of the specification *)

(** The stream delivers a new decision for 10.0.0.1; at the next tick
    Cloudflare gets one create call with the annotated request and returns
    the identifier R1; the stream delivers the deleted decision; at the
    next tick Cloudflare gets one delete call for R1.  The loop is the
    ticker-driven one, with the collecting loops of the stream-driven
    program in the place of [CollectLAPIStream]. *)
Example end_to_end_scenario :
  run collect
      [Stream (newOf "10.0.0.1");
       Tick (Success [mkIPListItem "10.0.0.1" "R1"]) (Success []);
       Stream (deletedOf "10.0.0.1");
       Tick (Success []) (Success [])]
      initial =
    Running (mkState ∅ ∅ ∅
               [CreateIPListItems [mkCreateRequest "10.0.0.1" annotation];
                DeleteIPListItems [mkDeleteItemRequest "R1"]]).
Proof. vm_compute. reflexivity. Qed.

(** The policy edge case of the specification: an address added and
    deleted in one window, before it is in the index.  The deletion is
    dropped and the add goes out. *)
Example add_then_delete_in_one_window :
  run collect
      [Stream (newOf "10.0.0.1");
       Stream (deletedOf "10.0.0.1");
       Tick (Success [mkIPListItem "10.0.0.1" "R1"]) (Success [])]
      initial =
    Running (mkState {["10.0.0.1" := "R1"]} ∅ ∅
               [CreateIPListItems [mkCreateRequest "10.0.0.1" annotation]]).
Proof. vm_compute. reflexivity. Qed.

(** * Further properties of the code *)

(** ** Panics of the collecting loops *)

Lemma rangeLoop_is_Some {A} (body : A → State → option State) (P : A → Prop) l s :
  (∀ x t, is_Some (body x t) ↔ P x) →
  is_Some (rangeLoop body l s) ↔ Forall P l.
Proof.
  intros Hbody. revert s. induction l as [|x l IH]; intros s; simpl.
  - split; [constructor|by eexists].
  - rewrite Forall_cons. destruct (body x s) as [s1|] eqn:Hx; simpl.
    + rewrite IH. split; [|tauto]. intros Hl. split; [|done].
      apply (Hbody x s). rewrite Hx. by eexists.
    + split; [by intros [? ?]|]. intros [HP _].
      apply (Hbody x s) in HP. rewrite Hx in HP. by destruct HP.
Qed.

Lemma deletedBody_is_Some decision s :
  is_Some (deletedBody decision s) ↔ valued decision.
Proof.
  split; [|apply deletedBody_valued].
  unfold deletedBody, valued. destruct (Value decision); simpl; [by eexists|].
  by intros [? ?].
Qed.

Lemma newBody_is_Some decision s :
  is_Some (newBody decision s) ↔ valued decision.
Proof.
  split; [|apply newBody_valued].
  unfold newBody, valued. destruct (Value decision); simpl; [by eexists|].
  by intros [? ?].
Qed.

Lemma collect_is_Some streamDecision s :
  is_Some (collect streamDecision s) ↔ wellFormed streamDecision.
Proof.
  unfold collect, wellFormed.
  rewrite <- (rangeLoop_is_Some deletedBody valued (Deleted streamDecision) s)
    by apply deletedBody_is_Some.
  destruct (rangeLoop deletedBody (Deleted streamDecision) s) as [s1|]; simpl.
  - rewrite (rangeLoop_is_Some newBody valued) by apply newBody_is_Some.
    split; [|tauto]. intros ?. split; [by eexists|done].
  - split; [by intros [? ?]|]. by intros [[? ?] _].
Qed.

(** X1: the collecting loops panic exactly when some decision of the
    batch, deleted or new, has a nil [Value], whatever the state; and an
    iteration of the stream-driven program on such a batch ends the
    process before it has made any call. *)
Theorem collect_panics_iff_nil_value
    (streamDecision : DecisionsStreamResponse) (s : State) :
  (collect streamDecision s = None ↔ ¬ wellFormed streamDecision) ∧
  (¬ wellFormed streamDecision →
   ∀ createReply deleteReply,
     iteration streamDecision createReply deleteReply s =
       Exited NilDereference (calls s)).
Proof.
  assert (collect streamDecision s = None ↔ ¬ wellFormed streamDecision) as Hiff.
  { rewrite <- (collect_is_Some streamDecision s).
    destruct (collect streamDecision s); split.
    - done.
    - intros Hn. destruct Hn. by eexists.
    - by intros _ [? ?].
    - done. }
  split; [done|]. intros Hwf createReply deleteReply. unfold iteration.
  assert (collect streamDecision (resetPending s) = None) as ->; [|done].
  destruct (collect streamDecision (resetPending s)) eqn:Hc; [|done].
  destruct Hwf. apply (collect_is_Some _ (resetPending s)). rewrite Hc. by eexists.
Qed.

Lemma collect_panics_iff_nil_value_witness :
  let streamDecision := mkStream [mkDecision (Some "10.0.0.1")] [mkDecision None] in
  ¬ wellFormed streamDecision ∧
  iteration streamDecision (Success []) (Success []) initial =
    Exited NilDereference [].
Proof.
  intros streamDecision.
  assert (¬ wellFormed streamDecision) as Hwf.
  { intros [_ Hn]. inversion Hn as [|? ? Hv _]; subst. by destruct Hv. }
  split; [exact Hwf|].
  exact (proj2 (collect_panics_iff_nil_value streamDecision initial) Hwf
               (Success []) (Success [])).
Defined.

(** ** Delivering a batch again *)

Lemma deletedLoop_noop ds s :
  Forall valued ds →
  (∀ v, v ∈ omap Value ds → ¬ resolvable (cloudflareIDByIP s) v) →
  rangeLoop deletedBody ds s = Some s.
Proof.
  induction 1 as [|d ds [v Hv] _ IH]; intros Hres; simpl; [done|].
  simpl in Hres. rewrite Hv in Hres. simpl in Hres.
  assert (deletedBody d s = Some s) as ->.
  { unfold deletedBody. rewrite Hv. simpl.
    fold (resolvable (cloudflareIDByIP s) v).
    rewrite decide_False; [done|]. apply Hres. left. }
  simpl. apply IH. intros w Hw. apply Hres. by right.
Qed.

Lemma newLoop_noop ns s :
  (∀ d, d ∈ ns → ∃ v, Value d = Some v ∧
                      addIPMap s !! mkCreateRequest v annotation = Some true) →
  rangeLoop newBody ns s = Some s.
Proof.
  induction ns as [|d ns IH]; intros Hin; simpl; [done|].
  destruct (Hin d) as (v & Hv & Hq); [left|].
  assert (newBody d s = Some s) as ->.
  { unfold newBody. rewrite Hv. simpl. rewrite insert_id by done. by destruct s. }
  simpl. apply IH. intros d' Hd'. apply Hin. by right.
Qed.

Lemma newLoop_true ns s s' :
  rangeLoop newBody ns s = Some s' →
  (∀ q, addIPMap s !! q = Some true → addIPMap s' !! q = Some true) ∧
  (∀ d, d ∈ ns → ∃ v, Value d = Some v ∧
                      addIPMap s' !! mkCreateRequest v annotation = Some true).
Proof.
  revert s. induction ns as [|d ns IH]; intros s Hrun; simpl in Hrun.
  - injection Hrun as <-. split; [done|]. intros d Hd. by apply elem_of_nil in Hd.
  - destruct (newBody d s) as [s1|] eqn:Hd; simpl in Hrun; [|done].
    destruct (IH _ Hrun) as [Hkeep Hall]. clear IH Hrun.
    unfold newBody in Hd. destruct (Value d) as [v|] eqn:Hv; simpl in Hd; [|done].
    injection Hd as <-. simpl in Hkeep.
    split.
    + intros q Hq. apply Hkeep.
      destruct (decide (q = mkCreateRequest v annotation)) as [->|Hne].
      * apply lookup_insert_eq.
      * by rewrite lookup_insert_ne.
    + intros d' [->|Hd']%elem_of_cons; [|by apply Hall].
      exists v. split; [done|]. apply Hkeep, lookup_insert_eq.
Qed.

(** X2: a batch delivered a second time, with no flush in between,
    changes nothing: the deleted values it resolved are out of the index,
    and its add requests are in the add map already. *)
Theorem collect_idempotent
    (streamDecision : DecisionsStreamResponse) (s s1 : State) :
  collect streamDecision s = Some s1 →
  collect streamDecision s1 = Some s1.
Proof.
  intros Hrun.
  assert (wellFormed streamDecision) as [Hd Hn].
  { apply (collect_is_Some _ s). rewrite Hrun. by eexists. }
  unfold collect in *.
  destruct (rangeLoop deletedBody (Deleted streamDecision) s) as [s0|] eqn:Hdel;
    simpl in Hrun; [|done].
  destruct (deletedLoop_spec _ _ _ Hdel) as (_ & Hi & _).
  destruct (newLoop_spec _ _ _ Hrun) as (Hi1 & _ & _).
  destruct (newLoop_true _ _ _ Hrun) as (_ & Htrue).
  rewrite deletedLoop_noop; [simpl; by apply newLoop_noop|done|].
  intros v Hv Hres. rewrite Hi1 in Hres.
  unfold resolvable, index in Hres. rewrite Hi in Hres.
  destruct (decide (v ∈ omap Value (Deleted streamDecision) ∧
                    resolvable (cloudflareIDByIP s) v)) as [_|Hnot]; [done|].
  apply Hnot. split; [done|]. exact Hres.
Qed.

Lemma collect_idempotent_witness :
  let s := mkState {["10.0.0.1" := "R1"]} ∅ ∅ [] in
  let streamDecision :=
    mkStream [mkDecision (Some "10.0.0.1")] [mkDecision (Some "10.0.0.2")] in
  let s1 := mkState ∅ {[mkDeleteItemRequest "R1" := true]}
                    {[mkCreateRequest "10.0.0.2" annotation := true]} [] in
  collect streamDecision s = Some s1 ∧ collect streamDecision s1 = Some s1.
Proof.
  intros s streamDecision s1.
  assert (collect streamDecision s = Some s1) as Hrun by (vm_compute; reflexivity).
  split; [exact Hrun|].
  exact (collect_idempotent streamDecision s s1 Hrun).
Defined.

(** ** The order of the decisions in a batch *)

(** A loop whose body commutes with itself gives the same result on two
    arrangements of one slice, panics included. *)
Lemma rangeLoop_Permutation {A} (body : A → State → option State) l l' :
  (∀ x y s, (s1 ← body x s; body y s1) = (s1 ← body y s; body x s1)) →
  l ≡ₚ l' → ∀ s, rangeLoop body l s = rangeLoop body l' s.
Proof.
  intros Hcomm. induction 1 as [|x l l' _ IH|x y l|l l' l'' _ IH1 _ IH2];
    intros s; simpl.
  - done.
  - destruct (body x s); simpl; [apply IH|done].
  - pose proof (Hcomm y x s) as Hs.
    destruct (body y s) as [s1|], (body x s) as [s2|]; simpl in *.
    + destruct (body x s1) as [t1|], (body y s2) as [t2|]; simpl; try done.
      by injection Hs as ->.
    + by rewrite Hs.
    + by rewrite <- Hs.
    + done.
  - by rewrite IH1.
Qed.

Lemma deletedBody_pass v s :
  resolvable (cloudflareIDByIP s) v →
  deletedBody (mkDecision (Some v)) s =
    Some (mkState (delete v (cloudflareIDByIP s))
            (<[mkDeleteItemRequest (index (cloudflareIDByIP s) v) := true]>
               (deleteIPMap s))
            (addIPMap s) (calls s)).
Proof. intros Hv. unfold deletedBody, resolvable in *. simpl. by rewrite decide_True. Qed.

Lemma deletedBody_skip v s :
  ¬ resolvable (cloudflareIDByIP s) v →
  deletedBody (mkDecision (Some v)) s = Some s.
Proof. intros Hv. unfold deletedBody, resolvable in *. simpl. by rewrite decide_False. Qed.

Lemma deletedBody_comm x y s :
  (s1 ← deletedBody x s; deletedBody y s1) = (s1 ← deletedBody y s; deletedBody x s1).
Proof.
  destruct x as [[v|]], y as [[w|]].
  2:{ destruct (deletedBody (mkDecision (Some v)) s); done. }
  2:{ destruct (deletedBody (mkDecision (Some w)) s); done. }
  2:{ done. }
  destruct (decide (v = w)) as [->|Hne]; [done|].
  assert (w ≠ v) as Hne' by congruence.
  destruct (decide (resolvable (cloudflareIDByIP s) v)) as [Hv|Hv],
           (decide (resolvable (cloudflareIDByIP s) w)) as [Hw|Hw].
  - assert (resolvable (delete v (cloudflareIDByIP s)) w) as Hw'
      by (by apply resolvable_delete_ne).
    assert (resolvable (delete w (cloudflareIDByIP s)) v) as Hv'
      by (by apply resolvable_delete_ne).
    rewrite (deletedBody_pass v s Hv), (deletedBody_pass w s Hw).
    cbn [mbind option_bind].
    rewrite !deletedBody_pass by first [exact Hw'|exact Hv'].
    cbn [cloudflareIDByIP deleteIPMap addIPMap calls].
    rewrite !index_delete_ne by done.
    f_equal. f_equal.
    + apply delete_delete.
    + destruct (decide (index (cloudflareIDByIP s) v = index (cloudflareIDByIP s) w))
        as [->|Hid]; [done|].
      apply insert_insert_ne. congruence.
  - assert (¬ resolvable (delete v (cloudflareIDByIP s)) w) as Hw'
      by (by rewrite resolvable_delete_ne).
    rewrite (deletedBody_pass v s Hv), (deletedBody_skip w s Hw).
    cbn [mbind option_bind].
    rewrite deletedBody_skip by exact Hw'. by rewrite (deletedBody_pass v s Hv).
  - assert (¬ resolvable (delete w (cloudflareIDByIP s)) v) as Hv'
      by (by rewrite resolvable_delete_ne).
    rewrite (deletedBody_skip v s Hv), (deletedBody_pass w s Hw).
    cbn [mbind option_bind].
    rewrite (deletedBody_pass w s Hw). by rewrite deletedBody_skip by exact Hv'.
  - rewrite (deletedBody_skip v s Hv), (deletedBody_skip w s Hw).
    cbn [mbind option_bind].
    by rewrite (deletedBody_skip v s Hv), (deletedBody_skip w s Hw).
Qed.

Lemma newBody_comm x y s :
  (s1 ← newBody x s; newBody y s1) = (s1 ← newBody y s; newBody x s1).
Proof.
  destruct x as [[v|]], y as [[w|]]; unfold newBody; simpl; try done.
  f_equal. f_equal.
  destruct (decide (v = w)) as [->|Hne]; [done|].
  apply insert_insert_ne. congruence.
Qed.

(** X3: the result of collecting a batch does not depend on the order of
    its deleted decisions, nor on the order of its new decisions: two
    batches that are rearrangements of one another leave the same state,
    or both panic. *)
Theorem collect_order_irrelevant
    (streamDecision streamDecision' : DecisionsStreamResponse) (s : State) :
  Deleted streamDecision ≡ₚ Deleted streamDecision' →
  New streamDecision ≡ₚ New streamDecision' →
  collect streamDecision s = collect streamDecision' s.
Proof.
  intros Hd Hn. unfold collect.
  rewrite (rangeLoop_Permutation deletedBody _ _ deletedBody_comm Hd).
  destruct (rangeLoop deletedBody (Deleted streamDecision') s); simpl; [|done].
  by apply rangeLoop_Permutation; [apply newBody_comm|].
Qed.

Lemma collect_order_irrelevant_witness :
  let d1 := mkDecision (Some "10.0.0.1") in
  let d2 := mkDecision (Some "10.0.0.2") in
  let s := mkState {["10.0.0.1" := "R1"; "10.0.0.2" := "R2"]} ∅ ∅ [] in
  collect (mkStream [d1; d2] [d2; d1]) s = collect (mkStream [d2; d1] [d1; d2]) s.
Proof.
  intros d1 d2 s.
  exact (collect_order_irrelevant (mkStream [d1; d2] [d2; d1])
           (mkStream [d2; d1] [d1; d2]) s
           (perm_swap d2 d1 []) (perm_swap d1 d2 [])).
Defined.

(** ** Storing the items of a create reply *)

(** X4: when the items of a reply have distinct addresses, the loop at
    lines 117-119 stores every one of them (each address of the reply is
    then read back with the identifier of its item); and for every reply,
    distinct addresses or not, the entries of addresses that are not in
    the reply are untouched. *)
Theorem recordItems_round_trip
    (ipItems : list IPListItem) (m : gmap string string) :
  (NoDup (ItemIP <$> ipItems) →
   ∀ ipItem, ipItem ∈ ipItems →
             recordItems ipItems m !! ItemIP ipItem = Some (ItemID ipItem)) ∧
  (∀ ip, ip ∉ ItemIP <$> ipItems → recordItems ipItems m !! ip = m !! ip).
Proof.
  assert (∀ l m' ip, ip ∉ ItemIP <$> l → recordItems l m' !! ip = m' !! ip) as Hframe.
  { intros l m' ip Hip. rewrite recordItems_lookup.
    destruct (lastItemFor ip l) as [ipItem|] eqn:Hlast; [|done].
    destruct Hip. unfold lastItemFor in Hlast.
    apply last_Some_elem_of, list_elem_of_filter in Hlast as [<- Hin].
    by apply list_elem_of_fmap_2. }
  split; [|apply Hframe].
  intros Hnd. revert m. induction ipItems as [|x l IH]; intros m ipItem Hin.
  - by apply elem_of_nil in Hin.
  - apply NoDup_cons in Hnd as [Hx Hnd]. unfold recordItems. simpl.
    fold (recordItems l (<[ItemIP x := ItemID x]> m)).
    apply elem_of_cons in Hin as [->|Hin].
    + rewrite Hframe by done. apply lookup_insert_eq.
    + by apply IH.
Qed.

Lemma recordItems_round_trip_witness :
  let ipItems := [mkIPListItem "10.0.0.1" "R1"; mkIPListItem "10.0.0.2" "R2"] in
  NoDup (ItemIP <$> ipItems) ∧
  recordItems ipItems {["10.0.0.3" := "R3"]} !! "10.0.0.2" = Some "R2".
Proof.
  intros ipItems.
  assert (NoDup (ItemIP <$> ipItems)) as Hnd.
  { simpl. repeat constructor; intros Hin; inversion Hin as [|? ? ? Hin']; subst;
      inversion Hin'. }
  split; [exact Hnd|].
  exact (proj1 (recordItems_round_trip ipItems {["10.0.0.3" := "R3"]}) Hnd
               (mkIPListItem "10.0.0.2" "R2")
               (list_elem_of_further _ _ _ (list_elem_of_here _ _))).
Defined.

(** ** When the flush ends the process *)

(** X5: the flush of the ticker-driven program ends the process exactly
    when a call it made returned an error, with that error, right after
    that call: the create call when the add slice is not empty, or the
    delete call when the delete slice is not empty and the create call, if
    made, succeeded.  A failed create call thus keeps the pending deletes
    from being sent, and the reply of a call that is not made plays no
    part. *)
Theorem flushWith_exits_iff
    (addIPs : list IPListItemCreateRequest)
    (deleteIPs : list IPListItemDeleteItemRequest)
    (createReply deleteReply : Reply (list IPListItem))
    (s : State) (c : ExitCause) (log : list APICall) :
  flushWith addIPs deleteIPs createReply deleteReply s = Exited c log ↔
  ∃ err, c = LogFatal err ∧
    ((0 < length addIPs ∧ createReply = Failure err ∧
      log = calls s ++ [CreateIPListItems addIPs]) ∨
     (0 < length deleteIPs ∧ deleteReply = Failure err ∧
      ((addIPs = [] ∧ log = calls s ++ [DeleteIPListItems deleteIPs]) ∨
       (0 < length addIPs ∧ (∃ ipItems, createReply = Success ipItems) ∧
        log = (calls s ++ [CreateIPListItems addIPs]) ++
              [DeleteIPListItems deleteIPs])))).
Proof.
  unfold flushWith, createPhase, deletePhase. split.
  - destruct (decide (0 < length addIPs)) as [Ha|Ha].
    + destruct createReply as [ipItems|err]; simpl.
      * destruct (decide (0 < length deleteIPs)) as [Hd|Hd]; [|done].
        destruct deleteReply as [items|err]; simpl; [done|].
        intros [= <- <-]. exists err. split; [done|]. right.
        split_and!; [done..|]. right. split_and!; [done|by eexists|done].
      * intros [= <- <-]. exists err. split; [done|]. by left.
    + simpl. destruct (decide (0 < length deleteIPs)) as [Hd|Hd]; [|done].
      destruct deleteReply as [items|err]; simpl; [done|].
      intros [= <- <-]. exists err. split; [done|]. right.
      split_and!; [done..|]. left. split; [|done].
      destruct addIPs; [done|simpl in Ha; lia].
  - intros (err & -> & [(Ha & -> & ->)|(Hd & -> & [[-> ->]|(Ha & [ipItems ->] & ->)])]).
    + by rewrite decide_True.
    + simpl. by rewrite decide_True.
    + rewrite decide_True by done. simpl. by rewrite decide_True.
Qed.

(** ** The calls of the ticker-driven loop *)

(** The calls of one flush: none, the create call, the delete call, or
    the create call followed by the delete call; and a call that is made
    carries a non-empty slice. *)
Lemma flushWith_log addIPs deleteIPs createReply deleteReply s :
  ∃ new, logOf (flushWith addIPs deleteIPs createReply deleteReply s) =
         calls s ++ new ∧
    (new = [] ∨
     (new = [CreateIPListItems addIPs] ∧ 0 < length addIPs) ∨
     (new = [DeleteIPListItems deleteIPs] ∧ 0 < length deleteIPs) ∨
     (new = [CreateIPListItems addIPs; DeleteIPListItems deleteIPs] ∧
      0 < length addIPs ∧ 0 < length deleteIPs)).
Proof.
  unfold flushWith, createPhase, deletePhase.
  destruct (decide (0 < length addIPs)) as [Ha|Ha].
  - destruct createReply as [ipItems|err]; simpl.
    + destruct (decide (0 < length deleteIPs)) as [Hd|Hd].
      * exists [CreateIPListItems addIPs; DeleteIPListItems deleteIPs].
        split; [|by right; right; right].
        destruct deleteReply; simpl; by rewrite <- app_assoc.
      * exists [CreateIPListItems addIPs]. split; [done|]. right. by left.
    + exists [CreateIPListItems addIPs]. split; [done|]. right. by left.
  - simpl. destruct (decide (0 < length deleteIPs)) as [Hd|Hd].
    + exists [DeleteIPListItems deleteIPs]. split; [|by right; right; left].
      by destruct deleteReply.
    + exists []. split; [by rewrite app_nil_r|by left].
Qed.

Section LoopFacts.

Variable CollectLAPIStream : DecisionsStreamResponse → State → option State.
Hypothesis CollectLAPIStream_calls :
  ∀ streamDecision s s',
    CollectLAPIStream streamDecision s = Some s' → calls s' = calls s.

(** What one iteration of the loop adds to the log. *)
Lemma selects_log s e o :
  selects CollectLAPIStream s e o →
  ∃ new, logOf o = calls s ++ new ∧
    (new = [] ∨
     ∃ addIPs deleteIPs,
       isTick e = true ∧
       ranges (addIPMap s) addIPs ∧ ranges (deleteIPMap s) deleteIPs ∧
       ((new = [CreateIPListItems addIPs] ∧ 0 < length addIPs) ∨
        (new = [DeleteIPListItems deleteIPs] ∧ 0 < length deleteIPs) ∨
        (new = [CreateIPListItems addIPs; DeleteIPListItems deleteIPs] ∧
         0 < length addIPs ∧ 0 < length deleteIPs))).
Proof.
  intros Hsel. inversion Hsel as [|cr dr addIPs deleteIPs Ha Hd|b]; subst.
  - exists []. split; [by rewrite app_nil_r|by left].
  - destruct (flushWith_log addIPs deleteIPs cr dr s) as (new & Hlog & Hnew).
    exists new. split; [done|]. destruct Hnew as [->|Hnew]; [by left|].
    right. by exists addIPs, deleteIPs.
  - exists []. split; [|by left]. rewrite app_nil_r. unfold streamCase.
    destruct (CollectLAPIStream b s) eqn:Hb; simpl; [|done].
    by eapply CollectLAPIStream_calls.
Qed.

(** The executable loop is one of the loops. *)
Lemma run_loops events s :
  loops CollectLAPIStream s events (run CollectLAPIStream events s).
Proof.
  revert s. induction events as [|e events IH]; intros s; simpl; [constructor|].
  pose proof (selectCase_selects CollectLAPIStream e s) as Hsel.
  destruct (selectCase CollectLAPIStream e s) as [s1|c log]; simpl.
  - by eapply loops_next.
  - by apply loops_exit.
Qed.

(** X6: the ticker-driven loop calls Cloudflare at most twice per tick,
    at most once to create and at most once to delete, and never between
    ticks, for every order of the [range] loops and every collector that
    makes no call itself. *)
Theorem loops_call_budget (s : State) (events : list Event) (o : Outcome) :
  loops CollectLAPIStream s events o →
  (length (createCalls (logOf o)) ≤ length (createCalls (calls s)) + ticks events)%nat ∧
  (length (deleteCalls (logOf o)) ≤ length (deleteCalls (calls s)) + ticks events)%nat.
Proof.
  assert (∀ s e o, selects CollectLAPIStream s e o →
            (length (createCalls (logOf o)) ≤
              length (createCalls (calls s)) + ticks [e])%nat ∧
            (length (deleteCalls (logOf o)) ≤
              length (deleteCalls (calls s)) + ticks [e])%nat) as Hstep.
  { clear s events o. intros s e o Hsel.
    destruct (selects_log _ _ _ Hsel) as (new & -> & Hnew).
    unfold createCalls, deleteCalls, ticks. rewrite !filter_app, !length_app.
    destruct Hnew as [->|(addIPs & deleteIPs & He & _ & _ & Hnew)]; [simpl; lia|].
    rewrite filter_cons, decide_True by done. simpl.
    destruct Hnew as [[-> _]|[[-> _]|[-> _]]]; simpl; lia. }
  assert (∀ e events, ticks (e :: events) = (ticks [e] + ticks events)%nat) as Hticks.
  { intros e l. unfold ticks. change (e :: l) with ([e] ++ l).
    by rewrite filter_app, length_app. }
  induction 1 as [s|s e events c log Hsel|s e events s1 o Hsel _ IH].
  - simpl. lia.
  - apply Hstep in Hsel. rewrite Hticks. lia.
  - apply Hstep in Hsel. rewrite Hticks. cbn [logOf] in Hsel. lia.
Qed.

End LoopFacts.

Lemma loops_call_budget_witness :
  let events := [Stream (newOf "10.0.0.1");
                 Tick (Success [mkIPListItem "10.0.0.1" "R1"]) (Success []);
                 Stream (deletedOf "10.0.0.1")] in
  let o := Running (mkState ∅ {[mkDeleteItemRequest "R1" := true]} ∅
                      [CreateIPListItems [mkCreateRequest "10.0.0.1" annotation]]) in
  loops collect initial events o ∧
  (length (createCalls (logOf o)) ≤
   length (createCalls (calls initial)) + ticks events)%nat.
Proof.
  intros events o.
  assert (loops collect initial events o) as Hloops
    by exact (run_loops collect events initial).
  split; [exact Hloops|].
  exact (proj1 (loops_call_budget collect collect_calls initial events o Hloops)).
Defined.

(** ** What the ticker-driven loop sends *)

Lemma collect_pendingOK streamDecision s s' :
  collect streamDecision s = Some s' → pendingOK s → pendingOK s'.
Proof.
  intros Hrun [Ha Hd]. apply collect_collected in Hrun as (_ & _ & Hd' & Ha').
  split.
  - intros q Hq. apply Ha' in Hq as [Hq|[_ Hq]]; [by apply Ha|done].
  - intros q Hq. apply Hd' in Hq as [Hq|(v & _ & Hres & Hid)]; [by apply Hd|].
    unfold resolvable in Hres. by rewrite Hid in Hres.
Qed.

Lemma resetPending_pendingOK s : pendingOK (resetPending s).
Proof.
  split; intros q Hq; simpl in Hq; rewrite lookup_empty in Hq; by destruct Hq.
Qed.

Lemma ranges_create_wellFormed s addIPs :
  pendingOK s → ranges (addIPMap s) addIPs → 0 < length addIPs →
  wellFormedCall (CreateIPListItems addIPs).
Proof.
  intros [Ha _] Hr Hlen. split_and!.
  - intros ->. simpl in Hlen. lia.
  - by eapply ranges_NoDup.
  - apply Forall_forall. intros q Hq. apply Ha. by apply (ranges_elem_of _ _ _ Hr).
Qed.

Lemma ranges_delete_wellFormed s deleteIPs :
  pendingOK s → ranges (deleteIPMap s) deleteIPs → 0 < length deleteIPs →
  wellFormedCall (DeleteIPListItems deleteIPs).
Proof.
  intros [_ Hd] Hr Hlen. split_and!.
  - intros ->. simpl in Hlen. lia.
  - by eapply ranges_NoDup.
  - apply Forall_forall. intros q Hq. apply Hd. by apply (ranges_elem_of _ _ _ Hr).
Qed.

(** An iteration after which the loop goes on is a flush that goes on, or
    a batch collected without a panic. *)
Lemma selects_Running_inv (C : DecisionsStreamResponse → State → option State)
    s e s1 :
  selects C s e (Running s1) →
  (∃ createReply deleteReply addIPs deleteIPs,
      e = Tick createReply deleteReply ∧
      ranges (addIPMap s) addIPs ∧ ranges (deleteIPMap s) deleteIPs ∧
      flushWith addIPs deleteIPs createReply deleteReply s = Running s1) ∨
  (∃ streamDecision, e = Stream streamDecision ∧ C streamDecision s = Some s1).
Proof.
  intros Hsel. inversion Hsel; subst.
  - left. eauto 10.
  - right. eexists. split; [done|].
    match goal with H : streamCase _ _ _ = _ |- _ => unfold streamCase in H end.
    destruct (C _ s); congruence.
Qed.

Lemma selects_pendingOK s e s1 :
  pendingOK s → selects collect s e (Running s1) → pendingOK s1.
Proof.
  intros Hok Hsel.
  apply selects_Running_inv in Hsel
    as [(cr & dr & addIPs & deleteIPs & -> & Ha & Hd & Hflush)|(b & -> & Hrun)].
  - apply flushWith_running in Hflush as (Hadd & Hdel & _).
    split; intros q Hq; [rewrite Hadd in Hq|rewrite Hdel in Hq];
      rewrite lookup_empty in Hq; by destruct Hq.
  - by eapply collect_pendingOK.
Qed.

(** X7: every call the ticker-driven loop makes, started with request
    maps that hold only what the collecting loops put in them, is a call
    it means to make: a create call carries a non-empty slice of distinct
    requests, all with the fixed annotation, and a delete call a non-empty
    slice of distinct requests, none with the empty identifier; this for
    every order of the [range] loops. *)
Theorem loops_calls_wellFormed (s : State) (events : list Event) (o : Outcome) :
  pendingOK s →
  Forall wellFormedCall (calls s) →
  loops collect s events o →
  Forall wellFormedCall (logOf o).
Proof.
  assert (∀ s e o, pendingOK s → Forall wellFormedCall (calls s) →
            selects collect s e o → Forall wellFormedCall (logOf o)) as Hstep.
  { clear s events o. intros s e o Hok Hlog Hsel.
    destruct (selects_log collect collect_calls _ _ _ Hsel) as (new & -> & Hnew).
    apply Forall_app. split; [done|].
    destruct Hnew as [->|(addIPs & deleteIPs & _ & Ha & Hd & Hnew)]; [constructor|].
    destruct Hnew as [[-> ?]|[[-> ?]|(-> & ? & ?)]]; repeat constructor;
      by first [eapply ranges_create_wellFormed|eapply ranges_delete_wellFormed]. }
  intros Hok Hlog Hloops. induction Hloops as [s|s e events c log Hsel|s e events s1 o Hsel _ IH].
  - done.
  - by apply (Hstep s e).
  - apply IH; [by eapply selects_pendingOK|]. by apply (Hstep s e (Running s1)).
Qed.

Lemma loops_calls_wellFormed_witness :
  let events := [Stream (mkStream [] [mkDecision (Some "10.0.0.1");
                                      mkDecision (Some "10.0.0.1")]);
                 Tick (Success [mkIPListItem "10.0.0.1" "R1"]) (Success []);
                 Stream (deletedOf "10.0.0.1");
                 Tick (Success []) (Success [])] in
  pendingOK initial ∧ Forall wellFormedCall (calls initial) ∧
  Forall wellFormedCall (logOf (run collect events initial)).
Proof.
  intros events.
  assert (pendingOK initial) as Hok by exact (resetPending_pendingOK initial).
  assert (Forall wellFormedCall (calls initial)) as Hlog by constructor.
  split; [exact Hok|]. split; [exact Hlog|].
  exact (loops_calls_wellFormed initial events (run collect events initial)
           Hok Hlog (run_loops collect events initial)).
Defined.

(** ** Where the deleted identifiers come from *)

Lemma loops_app (C : DecisionsStreamResponse → State → option State)
    s events1 s1 events2 o :
  loops C s events1 (Running s1) → loops C s1 events2 o →
  loops C s (events1 ++ events2) o.
Proof.
  intros H1 H2. remember (Running s1) as o1 eqn:Ho1.
  induction H1 as [s|s e events c log Hsel|s e events s' o' Hsel _ IH]; simpl.
  - by injection Ho1 as ->.
  - done.
  - eapply loops_next; [done|]. by apply IH.
Qed.

Lemma returnedBy_app events more ipItem :
  returnedBy events ipItem → returnedBy (events ++ more) ipItem.
Proof.
  intros (pre & ipItems & dr & post & s0 & -> & Hpre & Hne & Hin).
  exists pre, ipItems, dr, (post ++ more), s0.
  split_and!; [|done..]. by rewrite <- app_assoc.
Qed.

Lemma lastItemFor_Some ip ipItems ipItem :
  lastItemFor ip ipItems = Some ipItem → ipItem ∈ ipItems ∧ ItemIP ipItem = ip.
Proof.
  unfold lastItemFor. intros Hlast.
  by apply last_Some_elem_of, list_elem_of_filter in Hlast as [? ?].
Qed.

(** X8: in a run of the ticker-driven loop from [initial], every
    identifier carried by a delete call is the identifier of an item that
    Cloudflare returned earlier in the run, in answer to a create call the
    loop made; this for every order of the [range] loops. *)
Theorem loops_delete_provenance (events : list Event) (o : Outcome) :
  loops collect initial events o →
  ∀ deleteIPs q,
    DeleteIPListItems deleteIPs ∈ logOf o → q ∈ deleteIPs →
    ∃ ip, returnedBy events (mkIPListItem ip (ID q)).
Proof.
  set (inv := λ (past : list Event) (s : State),
         (∀ k r, cloudflareIDByIP s !! k = Some r →
                 returnedBy past (mkIPListItem k r)) ∧
         (∀ q, is_Some (deleteIPMap s !! q) →
               ∃ ip, returnedBy past (mkIPListItem ip (ID q)))).
  set (logInv := λ (past : list Event) (log : list APICall),
         ∀ l q, DeleteIPListItems l ∈ log → q ∈ l →
                ∃ ip, returnedBy past (mkIPListItem ip (ID q))).
  assert (∀ past more log, logInv past log → logInv (past ++ more) log) as Hmono.
  { intros past more log H l q Hl Hq. destruct (H l q Hl Hq) as [ip Hip].
    exists ip. by apply returnedBy_app. }
  assert (∀ past s e o', inv past s → logInv past (calls s) →
            selects collect s e o' → logInv (past ++ [e]) (logOf o')) as Hlog.
  { intros past s e o' [_ Hd] Hl Hsel.
    destruct (selects_log collect collect_calls _ _ _ Hsel) as (new & -> & Hnew).
    intros l q [Hin|Hin]%elem_of_app Hq.
    - destruct (Hl l q Hin Hq) as [ip Hip]. exists ip. by apply returnedBy_app.
    - destruct Hnew as [->|(addIPs & deleteIPs & _ & _ & Hr & Hnew)];
        [by apply elem_of_nil in Hin|].
      assert (l = deleteIPs) as ->.
      { destruct Hnew as [[-> _]|[[-> _]|[-> _]]];
          repeat (apply elem_of_cons in Hin as [Hin|Hin]; [congruence|]);
          by apply elem_of_nil in Hin. }
      apply (ranges_elem_of _ _ _ Hr) in Hq. destruct (Hd q Hq) as [ip Hip].
      exists ip. by apply returnedBy_app. }
  assert (∀ past s e s1, loops collect initial past (Running s) → inv past s →
            selects collect s e (Running s1) → inv (past ++ [e]) s1) as Hinv.
  { intros past s e s1 Hpast [Hi Hd] Hsel.
    apply selects_Running_inv in Hsel
      as [(cr & dr & addIPs & deleteIPs & -> & Ha & _ & Hflush)|(b & -> & Hrun)].
    - apply flushWith_running in Hflush as (_ & Hdel & Hidx). split.
      + intros k r Hk.
        destruct Hidx as [[_ Heq]|(Hlen & ipItems & -> & Heq)]; rewrite Heq in Hk.
        { by apply returnedBy_app, Hi. }
        rewrite recordItems_lookup in Hk.
        destruct (lastItemFor k ipItems) as [ipItem|] eqn:Hlast.
        * injection Hk as <-. apply lastItemFor_Some in Hlast as [Hin <-].
          exists past, ipItems, dr, [], s. split_and!; [done|done| |by destruct ipItem].
          intros Hempty. rewrite Hempty in Ha. apply ranges_empty in Ha.
          subst. simpl in Hlen. lia.
        * by apply returnedBy_app, Hi.
      + intros q Hq. rewrite Hdel, lookup_empty in Hq. by destruct Hq.
    - apply collect_collected in Hrun as (_ & Hi' & Hd' & _).
      split.
      + intros k r Hk. rewrite Hi' in Hk. case_decide; [done|].
        by apply returnedBy_app, Hi.
      + intros q Hq. apply Hd' in Hq as [Hq|(v & _ & Hres & Hid)].
        * destruct (Hd q Hq) as [ip Hip]. exists ip. by apply returnedBy_app.
        * exists v. apply returnedBy_app, Hi.
          apply resolvable_lookup in Hres as (r & Hr & _).
          unfold index in Hid. rewrite Hr in Hid. simpl in Hid. by subst. }
  assert (∀ s events o, loops collect s events o →
            ∀ past, loops collect initial past (Running s) → inv past s →
                    logInv past (calls s) → logInv (past ++ events) (logOf o)) as Hmain.
  { clear events o.
    induction 1 as [s|s e events c log Hsel|s e events s1 o Hsel _ IH];
      intros past Hpast Hi Hl.
    - by rewrite app_nil_r.
    - change (e :: events) with ([e] ++ events). rewrite app_assoc.
      apply Hmono. by apply (Hlog past s e (Exited c log)).
    - change (e :: events) with ([e] ++ events). rewrite app_assoc.
      apply IH.
      + eapply loops_app; [done|]. eapply loops_next; [done|constructor].
      + by eapply Hinv.
      + by apply (Hlog past s e (Running s1)). }
  intros Hloops. apply (Hmain initial events o Hloops []).
  - constructor.
  - unfold inv. split.
    + intros k r Hk. simpl in Hk. by rewrite lookup_empty in Hk.
    + intros q Hq. simpl in Hq. rewrite lookup_empty in Hq. by destruct Hq.
  - intros l q Hin. by apply elem_of_nil in Hin.
Qed.

Lemma loops_delete_provenance_witness :
  let events := [Stream (newOf "10.0.0.1");
                 Tick (Success [mkIPListItem "10.0.0.1" "R1"]) (Success []);
                 Stream (deletedOf "10.0.0.1");
                 Tick (Success []) (Success [])] in
  DeleteIPListItems [mkDeleteItemRequest "R1"] ∈ logOf (run collect events initial) ∧
  ∃ ip, returnedBy events (mkIPListItem ip "R1").
Proof.
  intros events.
  assert (DeleteIPListItems [mkDeleteItemRequest "R1"]
            ∈ logOf (run collect events initial)) as Hin.
  { vm_compute. right. left. }
  split; [exact Hin|].
  exact (loops_delete_provenance events (run collect events initial)
           (run_loops collect events initial)
           [mkDeleteItemRequest "R1"] (mkDeleteItemRequest "R1") Hin
           (list_elem_of_here _ _)).
Defined.

(** ** The two programs side by side *)

Lemma andThen_Running o : andThen o Running = o.
Proof. by destruct o. Qed.

(** X9: an iteration of the stream-driven program whose delete call
    succeeds, if it is made, does what the ticker-driven loop does on the
    same batch followed by a tick, from empty request maps: the same
    calls, the same index, the same exit if the create call fails or a
    decision has no value.  (The request maps the iteration leaves behind
    are dead: the next iteration starts with fresh ones.) *)
Theorem iteration_is_stream_then_tick
    (streamDecision : DecisionsStreamResponse)
    (createReply : Reply (list IPListItem)) (items : list IPListItem) (s : State) :
  andThen (iteration streamDecision createReply (Success items) s)
          (λ s', Running (resetPending s')) =
  run collect [Stream streamDecision; Tick createReply (Success items)]
      (resetPending s).
Proof.
  unfold iteration. simpl. unfold streamCase.
  destruct (collect streamDecision (resetPending s)) as [s1|]; simpl; [|done].
  rewrite andThen_Running. unfold flush, flushWith.
  destruct (createPhase (keys (addIPMap s1)) createReply s1) as [s2|c log] eqn:Hc;
    simpl; [|done].
  assert (deleteIPMap s2 = deleteIPMap s1) as <-.
  { unfold createPhase in Hc. case_decide; [destruct createReply|];
      simplify_eq; done. }
  unfold deleteUnchecked, deletePhase. by case_decide.
Qed.

(** ** The calls of the stream-driven loop *)

Lemma iteration_log streamDecision createReply deleteReply s :
  ∃ new, logOf (iteration streamDecision createReply deleteReply s) =
         calls s ++ new ∧
    Forall wellFormedCall new ∧
    (length (createCalls new) ≤ 1)%nat ∧ (length (deleteCalls new) ≤ 1)%nat.
Proof.
  unfold iteration.
  destruct (collect streamDecision (resetPending s)) as [s1|] eqn:Hrun; simpl.
  2:{ exists []. rewrite app_nil_r. split_and!; [done|constructor|simpl; lia..]. }
  pose proof (collect_pendingOK _ _ _ Hrun (resetPending_pendingOK s)) as Hok.
  apply collect_calls in Hrun. simpl in Hrun. rewrite <- Hrun.
  unfold createPhase, deleteUnchecked.
  destruct (decide (0 < length (keys (addIPMap s1)))) as [Ha|Ha].
  - pose proof (ranges_create_wellFormed s1 _ Hok (ranges_keys _) Ha) as Hwa.
    destruct createReply as [ipItems|err]; simpl.
    + destruct (decide (0 < length (keys (deleteIPMap s1)))) as [Hd|Hd].
      * pose proof (ranges_delete_wellFormed s1 _ Hok (ranges_keys _) Hd) as Hwd.
        exists [CreateIPListItems (keys (addIPMap s1));
                DeleteIPListItems (keys (deleteIPMap s1))].
        split_and!; [by rewrite <- app_assoc| |cbn; repeat case_decide; try done; simpl; lia..].
        constructor; [exact Hwa|constructor; [exact Hwd|constructor]].
      * exists [CreateIPListItems (keys (addIPMap s1))].
        split_and!; [done| |cbn; repeat case_decide; try done; simpl; lia..].
        constructor; [exact Hwa|constructor].
    + exists [CreateIPListItems (keys (addIPMap s1))].
      split_and!; [done| |cbn; repeat case_decide; try done; simpl; lia..].
      constructor; [exact Hwa|constructor].
  - simpl. destruct (decide (0 < length (keys (deleteIPMap s1)))) as [Hd|Hd].
    + pose proof (ranges_delete_wellFormed s1 _ Hok (ranges_keys _) Hd) as Hwd.
      exists [DeleteIPListItems (keys (deleteIPMap s1))].
      split_and!; [done| |cbn; repeat case_decide; try done; simpl; lia..].
      constructor; [exact Hwd|constructor].
    + exists []. rewrite app_nil_r. split_and!; [done|constructor|simpl; lia..].
Qed.

(** X10: whatever was in the request maps, the stream-driven loop makes
    at most one create call and at most one delete call per delivered
    batch, and every call it makes carries a non-empty slice of distinct
    requests, annotated for a create call, with non-empty identifiers for
    a delete call. *)
Theorem runStream_calls (deliveries : list Delivery) (s : State) :
  Forall wellFormedCall (calls s) →
  Forall wellFormedCall (logOf (runStream deliveries s)) ∧
  (length (createCalls (logOf (runStream deliveries s))) ≤
     length (createCalls (calls s)) + length deliveries)%nat ∧
  (length (deleteCalls (logOf (runStream deliveries s))) ≤
     length (deleteCalls (calls s)) + length deliveries)%nat.
Proof.
  revert s. induction deliveries as [|d rest IH]; intros s Hlog; simpl.
  - split_and!; [done|lia..].
  - destruct (iteration_log (batch d) (createReplyOf d) (deleteReplyOf d) s)
      as (new & Hnew & Hwf & Hc & Hd).
    destruct (iteration (batch d) (createReplyOf d) (deleteReplyOf d) s)
      as [s1|c log]; simpl in *; subst.
    + destruct (IH s1) as (IH1 & IH2 & IH3).
      { rewrite Hnew. by apply Forall_app. }
      split; [done|]. rewrite Hnew in IH2, IH3.
      unfold createCalls, deleteCalls in *.
      rewrite filter_app, length_app in IH2, IH3. lia.
    + split; [by apply Forall_app|].
      unfold createCalls, deleteCalls in *.
      rewrite !filter_app, !length_app. lia.
Qed.

Lemma runStream_calls_witness :
  let deliveries :=
    [mkDelivery (newOf "10.0.0.1") (Success [mkIPListItem "10.0.0.1" "R1"]) (Success []);
     mkDelivery (deletedOf "10.0.0.1") (Success []) (Failure "rate limited")] in
  Forall wellFormedCall (calls initial) ∧
  Forall wellFormedCall (logOf (runStream deliveries initial)).
Proof.
  intros deliveries.
  assert (Forall wellFormedCall (calls initial)) as Hlog by constructor.
  split; [exact Hlog|].
  exact (proj1 (runStream_calls deliveries initial Hlog)).
Defined.

(** ** Set-up of the stream-driven program *)

(** The identifier [getCrowdSecIPListId] returns is the one of the first
    list named "crowdsec". *)
Lemma getCrowdSecIPListId_found ipLists id :
  getCrowdSecIPListId ipLists = Success id →
  ∃ pre ipList post,
    ipLists = pre ++ ipList :: post ∧
    Forall (λ l, cloudflare.Name l ≠ "crowdsec") pre ∧
    cloudflare.Name ipList = "crowdsec" ∧
    cloudflare.ID ipList = id.
Proof.
  induction ipLists as [|x l IH]; simpl; [done|].
  destruct (decide (cloudflare.Name x = "crowdsec")) as [Hx|Hx].
  - intros [= <-]. by exists [], x, l.
  - intros (pre & ipList & post & -> & Hpre & Hn & Hid)%IH.
    exists (x :: pre), ipList, post. split_and!; [done| |done..].
    by apply Forall_cons.
Qed.

(** X11: [getCrowdSecIPListId] returns an identifier exactly when some
    list of the slice is named "crowdsec", and then the identifier of the
    first such list; it returns its error exactly when no list is so
    named, the empty slice included. *)
Theorem getCrowdSecIPListId_spec (ipLists : list cloudflare.IPList) :
  (∀ id, getCrowdSecIPListId ipLists = Success id ↔
         ∃ pre ipList post,
           ipLists = pre ++ ipList :: post ∧
           Forall (λ l, cloudflare.Name l ≠ "crowdsec") pre ∧
           cloudflare.Name ipList = "crowdsec" ∧
           cloudflare.ID ipList = id) ∧
  (∀ err, getCrowdSecIPListId ipLists = Failure err ↔
          Forall (λ l, cloudflare.Name l ≠ "crowdsec") ipLists ∧
          err = "crowdsec ip list not found").
Proof.
  induction ipLists as [|x l [IHs IHf]]; simpl.
  - split.
    + intros id. split; [done|]. intros (pre & ipList & post & Heq & _).
      by destruct pre.
    + intros err. split; [by intros [= <-]|]. by intros [_ ->].
  - destruct (decide (cloudflare.Name x = "crowdsec")) as [Hx|Hx].
    + split.
      * intros id. split.
        -- intros [= <-]. by exists [], x, l.
        -- intros (pre & ipList & post & Heq & Hpre & Hn & Hid).
           destruct pre as [|y pre]; simpl in Heq; simplify_eq; [done|].
           by apply Forall_cons in Hpre as [? _].
      * intros err. split; [done|]. intros [Hall _].
        by apply Forall_cons in Hall as [? _].
    + split.
      * intros id. rewrite IHs. split.
        -- intros (pre & ipList & post & -> & Hpre & Hn & Hid).
           exists (x :: pre), ipList, post. split_and!; [done| |done..].
           by apply Forall_cons.
        -- intros (pre & ipList & post & Heq & Hpre & Hn & Hid).
           destruct pre as [|y pre]; simpl in Heq; simplify_eq.
           apply Forall_cons in Hpre as [_ Hpre]. by exists pre, ipList, post.
      * intros err. rewrite IHf, Forall_cons. tauto.
Qed.

Lemma clearExisting_log listReply deleteReply :
  setupLog (clearExistingCrowdSecIpList listReply deleteReply) = [ListIPLists] ∨
  ∃ ipLists id,
    listReply = Success ipLists ∧
    getCrowdSecIPListId ipLists = Success id ∧
    setupLog (clearExistingCrowdSecIpList listReply deleteReply) =
      [ListIPLists; DeleteIPList id].
Proof.
  unfold clearExistingCrowdSecIpList.
  destruct listReply as [ipLists|err]; [|by left].
  destruct (getCrowdSecIPListId ipLists) as [id|err] eqn:Hid; [|by left].
  right. exists ipLists, id. by destruct deleteReply.
Qed.

Lemma setUp_log zone listReply deleteReply createListReply rulesReply :
  ∃ more,
    setupLog (setUp zone listReply deleteReply createListReply rulesReply) =
      setupLog (clearExistingCrowdSecIpList listReply deleteReply) ++ more ∧
    listDeletions more = [].
Proof.
  unfold setUp.
  destruct (clearExistingCrowdSecIpList listReply deleteReply) as [u log|err log];
    simpl; [|exists []; by rewrite app_nil_r].
  destruct createListReply as [ipList|err]; simpl; [|by eexists [_]].
  destruct rulesReply; simpl; rewrite <- app_assoc; by eexists [_; _].
Qed.

(** X12: the set-up deletes at most one list, and only the first list of
    the listing that is named "crowdsec": when the listing fails or has no
    such list no list is deleted, and further lists of that name are left
    in place. *)
Theorem setUp_deletes_first_crowdsec_list
    (zone : string) (listReply : Reply (list cloudflare.IPList))
    (deleteReply : Reply unit) (createListReply : Reply cloudflare.IPList)
    (rulesReply : Reply (list cloudflare.FirewallRule)) :
  let log := setupLog (setUp zone listReply deleteReply createListReply rulesReply) in
  (length (listDeletions log) ≤ 1)%nat ∧
  ∀ id, DeleteIPList id ∈ log →
    ∃ pre ipList post,
      listReply = Success (pre ++ ipList :: post) ∧
      Forall (λ l, cloudflare.Name l ≠ "crowdsec") pre ∧
      cloudflare.Name ipList = "crowdsec" ∧
      cloudflare.ID ipList = id.
Proof.
  intros log. subst log.
  destruct (setUp_log zone listReply deleteReply createListReply rulesReply)
    as (more & -> & Hmore).
  assert (∀ id, DeleteIPList id ∈ more → False) as Hnone.
  { intros id Hin.
    assert (DeleteIPList id ∈ listDeletions more) as Hin'
      by (by apply list_elem_of_filter).
    rewrite Hmore in Hin'. by apply elem_of_nil in Hin'. }
  unfold listDeletions in *. rewrite filter_app, length_app, Hmore.
  destruct (clearExisting_log listReply deleteReply)
    as [->|(ipLists & id0 & -> & Hid & ->)].
  - split; [cbn; repeat case_decide; try done; simpl; lia|]. intros id [Hin|Hin]%elem_of_app; [|by destruct (Hnone id)].
    apply elem_of_cons in Hin as [?|Hin]; [done|by apply elem_of_nil in Hin].
  - split; [cbn; repeat case_decide; try done; simpl; lia|]. intros id [Hin|Hin]%elem_of_app; [|by destruct (Hnone id)].
    apply elem_of_cons in Hin as [?|Hin]; [done|].
    apply elem_of_cons in Hin as [[= ->]|Hin]; [|by apply elem_of_nil in Hin].
    apply getCrowdSecIPListId_found in Hid
      as (pre & ipList & post & -> & ? & ? & ?).
    by exists pre, ipList, post.
Qed.

(** X13: when the set-up goes through, its last two calls are the
    creation of the list named "crowdsec" and the creation of the single
    rule on it, both answered without error, the list it returns is the
    one Cloudflare created, and the only calls before them are the listing
    and, if a list was found, its deletion, answered without error; when
    it ends the process, the error is the one of the last call made, so
    no call follows a failed one. *)
Theorem setUp_outcome
    (zone : string) (listReply : Reply (list cloudflare.IPList))
    (deleteReply : Reply unit) (createListReply : Reply cloudflare.IPList)
    (rulesReply : Reply (list cloudflare.FirewallRule)) :
  (∀ ipList log,
      setUp zone listReply deleteReply createListReply rulesReply = Done ipList log →
      createListReply = Success ipList ∧
      (∃ rules, rulesReply = Success rules) ∧
      ∃ pre,
        log = pre ++ [CreateIPList "crowdsec" "IP list managed by crowdsec bouncer" "ip";
                      CreateFirewallRules zone [crowdsecRule]] ∧
        (pre = [ListIPLists] ∨
         ∃ id, pre = [ListIPLists; DeleteIPList id] ∧
               ∃ u, deleteReply = Success u)) ∧
  (∀ err log,
      setUp zone listReply deleteReply createListReply rulesReply = Aborted err log →
      ∃ pre c,
        log = pre ++ [c] ∧
        failedWith listReply deleteReply createListReply rulesReply err c).
Proof.
  unfold setUp, clearExistingCrowdSecIpList. split.
  - intros ipList log.
    destruct listReply as [ipLists|e1]; [|done].
    destruct (getCrowdSecIPListId ipLists) as [id|e2].
    + destruct deleteReply as [u|e3]; [|done].
      destruct createListReply as [l|e4]; [|done].
      destruct rulesReply as [rules|e5]; [|done].
      intros [= <- <-]. split_and!; [done|by eexists|].
      exists [ListIPLists; DeleteIPList id]. split; [done|]. right.
      exists id. split; [done|by exists u].
    + destruct createListReply as [l|e4]; [|done].
      destruct rulesReply as [rules|e5]; [|done].
      intros [= <- <-]. split_and!; [done|by eexists|].
      exists [ListIPLists]. split; [done|by left].
  - intros err log.
    destruct listReply as [ipLists|e1].
    2:{ intros [= <- <-]. by exists [], ListIPLists. }
    destruct (getCrowdSecIPListId ipLists) as [id|e2].
    + destruct deleteReply as [u|e3].
      2:{ intros [= <- <-]. by exists [ListIPLists], (DeleteIPList id). }
      destruct createListReply as [l|e4].
      2:{ intros [= <- <-]. by eexists [_; _], (CreateIPList _ _ _). }
      destruct rulesReply as [rules|e5]; [done|].
      intros [= <- <-]. by eexists [_; _; _], (CreateFirewallRules _ _).
    + destruct createListReply as [l|e4].
      2:{ intros [= <- <-]. by eexists [_], (CreateIPList _ _ _). }
      destruct rulesReply as [rules|e5]; [done|].
      intros [= <- <-]. by eexists [_; _], (CreateFirewallRules _ _).
Qed.

Lemma setUp_deletes_first_crowdsec_list_witness :
  let ipLists := [cloudflare.mkIPList "L0" "office";
                  cloudflare.mkIPList "L1" "crowdsec";
                  cloudflare.mkIPList "L2" "crowdsec"] in
  let log := setupLog (setUp "zone" (Success ipLists) (Success ())
                         (Success (cloudflare.mkIPList "L3" "crowdsec"))
                         (Success [])) in
  DeleteIPList "L1" ∈ log ∧ (length (listDeletions log) ≤ 1)%nat.
Proof.
  intros ipLists log.
  assert (DeleteIPList "L1" ∈ log) as Hin by (vm_compute; right; left).
  split; [exact Hin|].
  exact (proj1 (setUp_deletes_first_crowdsec_list "zone" (Success ipLists) (Success ())
                  (Success (cloudflare.mkIPList "L3" "crowdsec")) (Success []))).
Defined.

Lemma setUp_outcome_witness :
  let listReply := Success [cloudflare.mkIPList "L1" "crowdsec"] in
  let log := [ListIPLists; DeleteIPList "L1"] in
  setUp "zone" listReply (Failure "forbidden")
        (Success (cloudflare.mkIPList "L3" "crowdsec")) (Success []) =
    Aborted "forbidden" log ∧
  ∃ pre c, log = pre ++ [c] ∧
           failedWith listReply (Failure "forbidden")
             (Success (cloudflare.mkIPList "L3" "crowdsec")) (Success [])
             "forbidden" c.
Proof.
  intros listReply log.
  assert (setUp "zone" listReply (Failure "forbidden")
            (Success (cloudflare.mkIPList "L3" "crowdsec")) (Success []) =
          Aborted "forbidden" log) as Hrun by reflexivity.
  split; [exact Hrun|].
  exact (proj2 (setUp_outcome "zone" listReply (Failure "forbidden")
                  (Success (cloudflare.mkIPList "L3" "crowdsec")) (Success []))
               "forbidden" log Hrun).
Defined.

(** ** A window as one batch *)

Lemma newBody_deletedBody_comm x y s :
  (s1 ← newBody x s; deletedBody y s1) = (s1 ← deletedBody y s; newBody x s1).
Proof.
  destruct x as [[v|]], y as [[w|]].
  2:{ unfold newBody. simpl. done. }
  2:{ unfold newBody. simpl. by destruct (deletedBody _ s). }
  2:{ done. }
  unfold newBody. simpl.
  destruct (decide (resolvable (cloudflareIDByIP s) w)) as [Hw|Hw].
  - rewrite (deletedBody_pass w s Hw). rewrite deletedBody_pass by exact Hw. done.
  - rewrite (deletedBody_skip w s Hw). rewrite deletedBody_skip by exact Hw. done.
Qed.

Lemma newBody_deletedLoop_comm x ds s :
  (s1 ← newBody x s; rangeLoop deletedBody ds s1) =
  (s1 ← rangeLoop deletedBody ds s; newBody x s1).
Proof.
  revert s. induction ds as [|d ds IH]; intros s; simpl.
  - by destruct (newBody x s).
  - pose proof (newBody_deletedBody_comm x d s) as Hc.
    destruct (newBody x s) as [s1|] eqn:Hx, (deletedBody d s) as [s2|] eqn:Hd;
      simpl in *.
    + rewrite <- IH. destruct (deletedBody d s1) as [t1|], (newBody x s2) as [t2|];
        simpl; try done. by injection Hc as ->.
    + by rewrite Hc.
    + specialize (IH s2). rewrite <- Hc in IH. simpl in IH. done.
    + done.
Qed.

Lemma newLoop_deletedLoop_comm ns ds s :
  (s1 ← rangeLoop newBody ns s; rangeLoop deletedBody ds s1) =
  (s1 ← rangeLoop deletedBody ds s; rangeLoop newBody ns s1).
Proof.
  revert s. induction ns as [|x ns IH]; intros s; simpl.
  - by destruct (rangeLoop deletedBody ds s).
  - pose proof (newBody_deletedLoop_comm x ds s) as Hc.
    destruct (newBody x s) as [s1|] eqn:Hx; simpl in *.
    + rewrite IH. destruct (rangeLoop deletedBody ds s1) as [t1|],
        (rangeLoop deletedBody ds s) as [t2|]; simpl in *; try done.
      * by rewrite <- Hc.
      * by rewrite <- Hc.
    + destruct (rangeLoop deletedBody ds s) as [t2|]; simpl in *; [by rewrite <- Hc|done].
Qed.

Lemma collect_unfold streamDecision s :
  collect streamDecision s =
    s' ← rangeLoop deletedBody (Deleted streamDecision) s;
    rangeLoop newBody (New streamDecision) s'.
Proof. done. Qed.

(** X14: within a window the batch boundaries do not matter: collecting
    several batches one after the other, with no flush in between, gives
    the same state, or the same panic, as collecting the one batch that
    holds all their deleted decisions and all their new decisions. *)
Theorem collectAll_as_one_batch
    (batches : list DecisionsStreamResponse) (s : State) :
  collectAll batches s = collect (mergeBatches batches) s.
Proof.
  unfold collectAll, mergeBatches. revert s.
  induction batches as [|b bs IH]; intros s; [done|].
  cbn [rangeLoop]. rewrite !bind_cons.
  rewrite (collect_unfold (mkStream _ _) s). cbn [Deleted New].
  rewrite !rangeLoop_app, (collect_unfold b s).
  destruct (rangeLoop deletedBody (Deleted b) s) as [s1|]; cbn [mbind option_bind];
    [|done].
  pose proof (newLoop_deletedLoop_comm (New b) (bs ≫= Deleted) s1) as Hc.
  destruct (rangeLoop newBody (New b) s1) as [s2|] eqn:Hn;
    cbn [mbind option_bind] in *.
  - rewrite IH, collect_unfold. cbn [Deleted New]. rewrite Hc.
    destruct (rangeLoop deletedBody (bs ≫= Deleted) s1) as [t|];
      cbn [mbind option_bind]; [|done].
    by rewrite rangeLoop_app.
  - destruct (rangeLoop deletedBody (bs ≫= Deleted) s1) as [t|];
      cbn [mbind option_bind] in *; [|done].
    by rewrite rangeLoop_app, <- Hc.
Qed.

(** ** Pending requests stay pending *)

(** X15: within a window the collecting loops never take a pending
    request back: whatever the flush would have sent before some batches
    were collected, it still sends after them, among the create requests
    and among the delete requests alike.  A deleted decision does not
    cancel a pending add for its address, and a new decision does not
    cancel a pending delete. *)
Theorem collectAll_keeps_pending
    (batches : list DecisionsStreamResponse) (s s' : State)
    (addIPs addIPs' : list IPListItemCreateRequest)
    (deleteIPs deleteIPs' : list IPListItemDeleteItemRequest) :
  collectAll batches s = Some s' →
  ranges (addIPMap s) addIPs → ranges (addIPMap s') addIPs' →
  ranges (deleteIPMap s) deleteIPs → ranges (deleteIPMap s') deleteIPs' →
  addIPs ⊆ addIPs' ∧ deleteIPs ⊆ deleteIPs'.
Proof.
  intros Hrun Ha Ha' Hd Hd'.
  apply collectAll_collected in Hrun as (_ & _ & Hdel & Hadd).
  split; intros q Hq.
  - apply (ranges_elem_of _ _ _ Ha'), Hadd. left.
    by apply (ranges_elem_of _ _ _ Ha).
  - apply (ranges_elem_of _ _ _ Hd'), Hdel. left.
    by apply (ranges_elem_of _ _ _ Hd).
Qed.

Lemma collectAll_keeps_pending_witness :
  let s := mkState ∅ ∅ {[mkCreateRequest "10.0.0.1" annotation := true]} [] in
  let batches := [deletedOf "10.0.0.1"] in
  collectAll batches s = Some s ∧
  keys (addIPMap s) ⊆ keys (addIPMap s).
Proof.
  intros s batches.
  assert (collectAll batches s = Some s) as Hrun by (vm_compute; reflexivity).
  split; [exact Hrun|].
  exact (proj1 (collectAll_keeps_pending batches s s _ _ _ _ Hrun
                  (ranges_keys _) (ranges_keys _) (ranges_keys _) (ranges_keys _))).
Defined.

(** ** The round trip, across windows *)

(** While the loop goes on over events that leave the entry of an address
    as it is, the address keeps its identifier. *)
Lemma loops_keeps_entry ip remoteID events s s' :
  loops collect s events (Running s') →
  keepsEntry ip remoteID events →
  cloudflareIDByIP s !! ip = Some remoteID →
  cloudflareIDByIP s' !! ip = Some remoteID.
Proof.
  intros Hloops. remember (Running s') as o eqn:Ho.
  induction Hloops as [s|s e events c log Hsel|s e events s1 o Hsel _ IH];
    intros Hkeep Hs.
  - by injection Ho as ->.
  - done.
  - apply Forall_cons in Hkeep as [He Hkeep]. apply IH; [done|done|].
    clear IH Hkeep.
    apply selects_Running_inv in Hsel
      as [(cr & dr & addIPs & deleteIPs & -> & _ & _ & Hflush)|(b & -> & Hrun)].
    + apply flushWith_running in Hflush
        as (_ & _ & [[_ ->]|(_ & ipItems & -> & ->)]); [done|].
      rewrite recordItems_lookup.
      destruct (lastItemFor ip ipItems) as [ipItem|] eqn:Hlast; [|done].
      by rewrite (He ipItem).
    + apply collect_collected in Hrun as (_ & Hi & _ & _).
      rewrite Hi, decide_False; [done|]. by intros [? _].
Qed.

(** C3, as stated for every returned pair and every later window, does
    not hold.  An item with the empty identifier is stored, and the later
    deleted decision for its address yields no delete request.  When the
    reply holds two items for one address, the deleted decision yields the
    identifier of the last one, not of the first.  When a later create
    reply gives the address another identifier, the deleted decision
    yields that one.  And when the address was deleted in between, a
    further deleted decision yields nothing. *)
Lemma C3_returned_pair_not_round_tripped :
  (∃ s,
     run collect
         [Stream (newOf "1.2.3.4");
          Tick (Success [mkIPListItem "1.2.3.4" ""]) (Success []);
          Stream (deletedOf "1.2.3.4")]
         initial = Running s ∧
     keys (deleteIPMap s) = []) ∧
  (∃ s,
     run collect
         [Stream (newOf "1.2.3.4");
          Tick (Success [mkIPListItem "1.2.3.4" "abc"; mkIPListItem "1.2.3.4" "xyz"])
               (Success []);
          Stream (deletedOf "1.2.3.4")]
         initial = Running s ∧
     keys (deleteIPMap s) = [mkDeleteItemRequest "xyz"]) ∧
  (∃ s,
     run collect
         [Stream (newOf "1.2.3.4");
          Tick (Success [mkIPListItem "1.2.3.4" "abc"]) (Success []);
          Stream (newOf "5.6.7.8");
          Tick (Success [mkIPListItem "1.2.3.4" "xyz"; mkIPListItem "5.6.7.8" "def"])
               (Success []);
          Stream (deletedOf "1.2.3.4")]
         initial = Running s ∧
     keys (deleteIPMap s) = [mkDeleteItemRequest "xyz"]) ∧
  (∃ s,
     run collect
         [Stream (newOf "1.2.3.4");
          Tick (Success [mkIPListItem "1.2.3.4" "abc"]) (Success []);
          Stream (deletedOf "1.2.3.4");
          Tick (Success []) (Success []);
          Stream (deletedOf "1.2.3.4")]
         initial = Running s ∧
     keys (deleteIPMap s) = []).
Proof.
  split_and!; eexists; (split; [vm_compute; reflexivity|]); vm_compute; reflexivity.
Qed.

(** C3, amended: when a flush makes the create call and goes on, every
    address of the reply is mapped, in the index, to the identifier of the
    last returned item for it.  When that identifier [remoteID] is not
    empty, then in any later window, that is after any further batches
    and flushes on which the loop goes on and which leave the entry as it
    is (no deleted decision for the address, no create reply that gives it
    another identifier), the deleted decision for the address takes it out
    of the index, and every slice built by ranging over the delete map
    holds exactly one request carrying [remoteID]; that slice is what the
    delete call of the next flush carries. *)
Theorem C3_round_trip
    (s s1 : State) (addIPs : list IPListItemCreateRequest)
    (deleteIPs : list IPListItemDeleteItemRequest)
    (ipItems : list IPListItem) (deleteReply : Reply (list IPListItem)) :
  0 < length addIPs →
  flushWith addIPs deleteIPs (Success ipItems) deleteReply s = Running s1 →
  (∀ ip ipItem,
      lastItemFor ip ipItems = Some ipItem →
      cloudflareIDByIP s1 !! ip = Some (ItemID ipItem)) ∧
  (∀ ip remoteID events s2,
      lastItemFor ip ipItems = Some (mkIPListItem ip remoteID) →
      remoteID ≠ "" →
      loops collect s1 events (Running s2) →
      keepsEntry ip remoteID events →
      ∃ s3,
        collect (deletedOf ip) s2 = Some s3 ∧
        cloudflareIDByIP s3 !! ip = None ∧
        ∀ deleteIPs', ranges (deleteIPMap s3) deleteIPs' →
          requestsOf remoteID deleteIPs' = [mkDeleteItemRequest remoteID] ∧
          ∀ addIPs' ipItems' deleteReply', ∃ before,
            logOf (flushWith addIPs' deleteIPs' (Success ipItems') deleteReply' s3) =
            before ++ [DeleteIPListItems deleteIPs']).
Proof.
  intros Hlen Hflush.
  destruct (flushWith_running _ _ _ _ _ _ Hflush) as (_ & _ & [[-> _]|(_ & l & Hl & Hi)]).
  { simpl in Hlen. lia. }
  injection Hl as <-.
  assert (∀ ip ipItem, lastItemFor ip ipItems = Some ipItem →
            cloudflareIDByIP s1 !! ip = Some (ItemID ipItem)) as Hstored.
  { intros ip ipItem Hlast. by rewrite Hi, recordItems_lookup, Hlast. }
  split; [done|].
  intros ip remoteID events s2 Hlast Hid Hloops Hkeep.
  assert (cloudflareIDByIP s2 !! ip = Some remoteID) as Hs2.
  { eapply loops_keeps_entry; [done|done|]. by apply (Hstored ip _ Hlast). }
  eexists. unfold collect. simpl.
  rewrite (deletedBody_resolved ip remoteID) by done.
  simpl. split; [done|]. split; [apply lookup_delete_eq|].
  intros deleteIPs' Hranges.
  assert (is_Some (<[mkDeleteItemRequest remoteID := true]> (deleteIPMap s2)
                   !! mkDeleteItemRequest remoteID)) as Hsome.
  { rewrite lookup_insert_eq. by eexists. }
  split.
  - unfold requestsOf.
    eapply ranges_filter_unique; [done|done|done|].
    intros q _ Hq. destruct q; simpl in *. by subst.
  - intros addIPs' ipItems' deleteReply'. apply flushWith_log_delete.
    apply (ranges_elem_of _ _ _ Hranges) in Hsome.
    destruct deleteIPs'; [by apply elem_of_nil in Hsome|simpl; lia].
Qed.

Lemma C3_round_trip_witness :
  let s := mkState ∅ ∅ {[mkCreateRequest "1.2.3.4" annotation := true]} [] in
  let addIPs := [mkCreateRequest "1.2.3.4" annotation] in
  let ipItems := [mkIPListItem "1.2.3.4" "abc"] in
  let s1 := mkState {["1.2.3.4" := "abc"]} ∅ ∅ [CreateIPListItems addIPs] in
  let events :=
    [Stream (newOf "5.6.7.8");
     Tick (Success [mkIPListItem "1.2.3.4" "abc"; mkIPListItem "5.6.7.8" "def"])
          (Success []);
     Tick (Success []) (Success [])] in
  let s2 := mkState {["1.2.3.4" := "abc"; "5.6.7.8" := "def"]} ∅ ∅
              [CreateIPListItems addIPs;
               CreateIPListItems [mkCreateRequest "5.6.7.8" annotation]] in
  0 < length addIPs ∧
  flushWith addIPs [] (Success ipItems) (Success []) s = Running s1 ∧
  lastItemFor "1.2.3.4" ipItems = Some (mkIPListItem "1.2.3.4" "abc") ∧
  "abc" ≠ "" ∧
  loops collect s1 events (Running s2) ∧
  keepsEntry "1.2.3.4" "abc" events ∧
  cloudflareIDByIP s1 !! "1.2.3.4" = Some "abc" ∧
  ∃ s3,
    collect (deletedOf "1.2.3.4") s2 = Some s3 ∧
    cloudflareIDByIP s3 !! "1.2.3.4" = None ∧
    ∀ deleteIPs', ranges (deleteIPMap s3) deleteIPs' →
      requestsOf "abc" deleteIPs' = [mkDeleteItemRequest "abc"] ∧
      ∀ addIPs' ipItems' deleteReply', ∃ before,
        logOf (flushWith addIPs' deleteIPs' (Success ipItems') deleteReply' s3) =
        before ++ [DeleteIPListItems deleteIPs'].
Proof.
  intros s addIPs ipItems s1 events s2.
  assert (0 < length addIPs) as Hlen by (simpl; lia).
  assert (flushWith addIPs [] (Success ipItems) (Success []) s = Running s1)
    as Hflush by (vm_compute; reflexivity).
  assert (lastItemFor "1.2.3.4" ipItems = Some (mkIPListItem "1.2.3.4" "abc"))
    as Hlast by reflexivity.
  assert ("abc" ≠ "") as Hid by discriminate.
  assert (run collect events s1 = Running s2) as Hrun by (vm_compute; reflexivity).
  assert (loops collect s1 events (Running s2)) as Hloops.
  { rewrite <- Hrun. apply run_loops. }
  assert (keepsEntry "1.2.3.4" "abc" events) as Hkeep.
  { repeat constructor.
    - intros Hin. inversion Hin.
    - intros ipItem Hl. vm_compute in Hl. by injection Hl as <-.
    - intros ipItem Hl. vm_compute in Hl. discriminate. }
  pose proof (C3_round_trip s s1 addIPs [] ipItems (Success []) Hlen Hflush)
    as [Hstored Hround].
  split_and!; try assumption.
  - exact (Hstored "1.2.3.4" _ Hlast).
  - exact (Hround "1.2.3.4" "abc" events s2 Hlast Hid Hloops Hkeep).
Defined.
